(** * Parcel [Config]: plugin-pipeline resolution

    A shallow embedding of the [Config] class of
    [packages/core/core/src/Config.js]: glob matching over plain JavaScript
    objects, the spread ('...') composition of pipelines, the plugin loader
    with its version gate and its cache, and the per-phase accessors.

    Conventions of the embedding:
    - a JavaScript object used as a map is the list of its own properties in
      insertion order; [for_in] computes the order in which [for (k in o)]
      visits them;
    - an [async] method is a state transformer returning [Ok] (the promise
      fulfils) or [Err] (the promise rejects); where the interleaving of
      several calls matters, the method is split at its [await];
    - the libraries the class calls (micromatch, path, semver, localRequire,
      the module system, the logger) are fields of a [Host] record or events
      of a trace.

    Module [Dump] embeds the two string functions of
    [packages/core/utils/src/dumpGraphToGraphViz.js]. *)

From stdpp Require Import gmap strings list.
From Stdlib Require Import Ascii NArith ZArith Lia.

Local Open Scope N_scope.
Local Open Scope nat_scope.

(** ** JavaScript values and errors *)

(** Objects are heap references: two object values are the identical object
    exactly when their references are equal. *)
Inductive value : Type :=
  | VUndefined
  | VNull
  | VBool (b : bool)
  | VNumber (n : Z)
  | VString (s : string)
  | VObject (ref : nat).

Global Instance value_eq_dec : EqDecision value.
Proof. solve_decision. Defined.

(** ToBoolean. *)
Definition truthy (v : value) : bool :=
  match v with
  | VUndefined | VNull => false
  | VBool b => b
  | VNumber n => negb (n =? 0)%Z
  | VString s => negb (bool_decide (s = ""))
  | VObject _ => true
  end.

Definition truthy_string (s : string) : bool := negb (bool_decide (s = "")).

Inductive exn : Type :=
  | Error (message : string)
  | TypeError (message : string).

Inductive result (A : Type) : Type :=
  | Ok (a : A)
  | Err (e : exn).
Global Arguments Ok {A} a.
Global Arguments Err {A} e.

Definition message (e : exn) : string :=
  match e with
  | Error m | TypeError m => m
  end.

(** The double-quote character, for messages built by template literals. *)
Definition dquote : string := String (ascii_of_nat 34) "".

(** [s] occurs in [msg]. *)
Definition names (msg s : string) : Prop :=
  ∃ before after, msg = before +:+ s +:+ after.

(** ** Plain objects as ordered maps *)

Module Obj.

(** Own enumerable string-keyed properties, oldest first. Keys are unique. *)
Definition t (T : Type) : Type := list (string * T).

Definition wf {T} (o : t T) : Prop := NoDup (o.*1).

(** [o[k]] for an own property; [None] is [undefined]. Keys that would be
    found on [Object.prototype] (such as "constructor") are not modelled. *)
Fixpoint get {T} (o : t T) (k : string) : option T :=
  match o with
  | [] => None
  | (k', v) :: o' => if bool_decide (k' = k) then Some v else get o' k
  end.

Definition digit (c : ascii) : option N :=
  let n := N_of_ascii c in
  if ((48 <=? n) && (n <=? 57))%N then Some (n - 48)%N else None.

Fixpoint digits (s : string) (acc : N) : option N :=
  match s with
  | EmptyString => Some acc
  | String c s' =>
      match digit c with
      | Some d => digits s' (10 * acc + d)%N
      | None => None
      end
  end.

(** The value of a canonical decimal numeral: digits only, no leading zero
    except for zero itself. *)
Definition numeral (k : string) : option N :=
  match k with
  | EmptyString => None
  | String c rest =>
      if bool_decide (c = "0"%char) && negb (bool_decide (rest = ""))
      then None
      else digits k 0%N
  end.

(** A key is an array index when it is the canonical numeral of an integer
    below 2^32 - 1. *)
Definition array_index (k : string) : option N :=
  match numeral k with
  | Some n => if (n <? 4294967295)%N then Some n else None
  | None => None
  end.

Fixpoint insert_index {T} (n : N) (e : string * T)
    (l : list (N * (string * T))) : list (N * (string * T)) :=
  match l with
  | [] => [(n, e)]
  | (m, e') :: l' =>
      if (n <? m)%N then (n, e) :: l else (m, e') :: insert_index n e l'
  end.

(** The array-index properties in ascending numeric order. *)
Fixpoint index_entries {T} (o : t T) : list (N * (string * T)) :=
  match o with
  | [] => []
  | (k, v) :: o' =>
      match array_index k with
      | Some n => insert_index n (k, v) (index_entries o')
      | None => index_entries o'
      end
  end.

(** The remaining properties in insertion order. *)
Fixpoint name_entries {T} (o : t T) : list (string * T) :=
  match o with
  | [] => []
  | (k, v) :: o' =>
      match array_index k with
      | Some _ => name_entries o'
      | None => (k, v) :: name_entries o'
      end
  end.

(** Property enumeration order of an ordinary object: array indices
    ascending, then the other keys in the order they were created. *)
Definition entries {T} (o : t T) : list (string * T) :=
  (index_entries o).*2 ++ name_entries o.

(** The keys visited by [for (let k in o)]. *)
Definition for_in {T} (o : t T) : list string := (entries o).*1.

(** No key of [o] is an array index: enumeration is insertion order. *)
Definition plain {T} (o : t T) : Prop :=
  Forall (λ k, array_index k = None) (o.*1).

End Obj.

(** ** Pipelines *)

Definition PackageName : Type := string.
Definition Pipeline : Type := list PackageName.
Definition Glob : Type := string.
Definition FilePath : Type := string.

Definition spread : PackageName := "...".

(** [pipeline.indexOf('...')]; [None] is [-1]. *)
Fixpoint indexOf (x : string) (l : list string) : option nat :=
  match l with
  | [] => None
  | y :: l' => if bool_decide (y = x) then Some 0 else S <$> indexOf x l'
  end.

(** [pipeline.includes('...')]. *)
Definition includes (x : string) (l : list string) : bool :=
  bool_decide (x ∈ l).

(** [pipeline.slice(0, i)] and [pipeline.slice(i + 1)]. *)
Definition slice_to (i : nat) (l : Pipeline) : Pipeline := take i l.
Definition slice_from (i : nat) (l : Pipeline) : Pipeline := drop i l.

Definition spread_error : exn :=
  Error "Only one spread parameter can be included in a config pipeline".

(** The closure [flatten] of [matchGlobMapPipelines]. It shifts the head of
    the shared queue [matches], so it returns the queue it leaves behind
    together with its outcome. *)
Fixpoint flatten (matches : list Pipeline) : result Pipeline * list Pipeline :=
  match matches with
  | [] =>
      (* matches.shift() is undefined: the pipeline is [] *)
      (Ok [], [])
  | pipeline :: matches' =>
      match indexOf spread pipeline with
      | Some spreadIndex =>
          match flatten matches' with
          | (Ok inner, rest) =>
              let pipeline' :=
                slice_to spreadIndex pipeline ++ inner
                  ++ slice_from (spreadIndex + 1) pipeline in
              if includes spread pipeline'
              then (Err spread_error, rest)
              else (Ok pipeline', rest)
          | (Err e, rest) => (Err e, rest)
          end
      | None =>
          if includes spread pipeline
          then (Err spread_error, matches')
          else (Ok pipeline, matches')
      end
  end.

(** ** The host: libraries and modules outside the class *)

Record package_json : Type := {
  (** the [engines] field of package.json, when there is one *)
  engines : option (gmap string string)
}.

(** What the loader reads of a module object. *)
Record module_object : Type := {
  prop_default : value;
  prop_CONFIG : value
}.

Record Host : Type := {
  (** micromatch: [isMatch(str, pattern)] *)
  isMatch : string → Glob → bool;
  (** path: [basename(path)] *)
  basename : FilePath → string;
  (** semver: [satisfies(version, range)] *)
  satisfies : string → string → bool;
  (** the [version] of the core's own package.json *)
  PARCEL_VERSION : string;
  (** localRequire: [resolve(name, path)] gives [[resolved, pkg]] or fails *)
  localResolve : PackageName → FilePath → result (FilePath * package_json);
  (** the module system: [require(resolved)] gives the exports or fails *)
  require : FilePath → result value;
  (** the objects the loaded modules refer to *)
  heap : gmap nat module_object;
  (** the timing of the resolutions: of the names whose resolution is still
      awaited, in the order of the requests, the position of the one that
      settles next (taken modulo their number) *)
  settle_next : list PackageName → nat
}.

(** What the class does to the outside, in program order. *)
Inductive event : Type :=
  | EResolve (pluginName : PackageName) (base : FilePath)
  | EWarn (message : string)
  | ESatisfies (version range : string)
  | ERequire (resolved : FilePath).

Global Instance event_eq_dec : EqDecision event.
Proof. solve_decision. Defined.

(** ** The class *)

Record ParcelConfig : Type := {
  cfg_resolvers : option Pipeline;
  cfg_transforms : option (Obj.t Pipeline);
  cfg_bundler : option PackageName;
  cfg_namers : option Pipeline;
  cfg_runtimes : option (Obj.t Pipeline);
  cfg_packagers : option (Obj.t PackageName);
  cfg_optimizers : option (Obj.t Pipeline);
  cfg_reporters : option Pipeline
}.

Record Config : Type := {
  configPath : FilePath;
  resolvers : Pipeline;
  transforms : Obj.t Pipeline;
  bundler : PackageName;
  namers : Pipeline;
  runtimes : Obj.t Pipeline;
  packagers : Obj.t PackageName;
  optimizers : Obj.t Pipeline;
  reporters : Pipeline;
  pluginCache : gmap PackageName value
}.

(** [x || d] for a field that is an array or an object when present. *)
Definition or_default {A} (x : option A) (d : A) : A := default d x.

(** [config.bundler || '']: the empty name is falsy too. *)
Definition or_empty (x : option string) : string :=
  match x with
  | Some s => if truthy_string s then s else ""
  | None => ""
  end.

Definition constructor (config : ParcelConfig) (filePath : FilePath) : Config :=
  {| configPath := filePath;
     resolvers := or_default (cfg_resolvers config) [];
     transforms := or_default (cfg_transforms config) [];
     runtimes := or_default (cfg_runtimes config) [];
     bundler := or_empty (cfg_bundler config);
     namers := or_default (cfg_namers config) [];
     packagers := or_default (cfg_packagers config) [];
     optimizers := or_default (cfg_optimizers config) [];
     reporters := or_default (cfg_reporters config) [];
     pluginCache := ∅ |}.

Definition deserialize (configPath : FilePath) (config : ParcelConfig) : Config :=
  constructor config configPath.

(** The record {} that declares nothing. *)
Definition empty_config : ParcelConfig :=
  {| cfg_resolvers := None; cfg_transforms := None; cfg_bundler := None;
     cfg_namers := None; cfg_runtimes := None; cfg_packagers := None;
     cfg_optimizers := None; cfg_reporters := None |}.

(** The instance together with the trace of what it did so far. *)
Record world : Type := {
  this : Config;
  trace : list event
}.

Definition emit (e : event) (w : world) : world :=
  {| this := this w; trace := trace w ++ [e] |}.

Definition cache_set (k : PackageName) (v : value) (w : world) : world :=
  {| this :=
       {| configPath := configPath (this w);
          resolvers := resolvers (this w);
          transforms := transforms (this w);
          bundler := bundler (this w);
          namers := namers (this w);
          runtimes := runtimes (this w);
          packagers := packagers (this w);
          optimizers := optimizers (this w);
          reporters := reporters (this w);
          pluginCache := <[k := v]> (pluginCache (this w)) |};
     trace := trace w |}.

Section Matching.
Variable host : Host.

Definition isGlobMatch (filePath : FilePath) (pattern : Glob) : bool :=
  isMatch host filePath pattern || isMatch host (basename host filePath) pattern.

(** The loop of [matchGlobMap] over the keys still to visit. [None] is the
    [null] after the loop and also an [undefined] property value. *)
Fixpoint matchGlobMap_loop {T} (filePath : FilePath) (globMap : Obj.t T)
    (patterns : list Glob) : option T :=
  match patterns with
  | [] => None
  | pattern :: patterns' =>
      if isGlobMatch filePath pattern
      then Obj.get globMap pattern
      else matchGlobMap_loop filePath globMap patterns'
  end.

Definition matchGlobMap {T} (filePath : FilePath) (globMap : Obj.t T) : option T :=
  matchGlobMap_loop filePath globMap (Obj.for_in globMap).

(** The first loop of [matchGlobMapPipelines]: the queue [matches]. A pushed
    [undefined] is read back as [[]] by [matches.shift() || []]. *)
Fixpoint collect_matches (filePath : FilePath) (globMap : Obj.t Pipeline)
    (patterns : list Glob) : list Pipeline :=
  match patterns with
  | [] => []
  | pattern :: patterns' =>
      if isGlobMatch filePath pattern
      then default [] (Obj.get globMap pattern)
             :: collect_matches filePath globMap patterns'
      else collect_matches filePath globMap patterns'
  end.

Definition matchGlobMapPipelines (filePath : FilePath)
    (globMap : Obj.t Pipeline) : result Pipeline :=
  let matches := collect_matches filePath globMap (Obj.for_in globMap) in
  (flatten matches).1.

End Matching.

(** ** Effects: a state and exception monad over [world] *)

Definition M (A : Type) : Type := world → result A * world.

Definition ret {A} (a : A) : M A := λ w, (Ok a, w).

(** Sequencing: an exception skips the rest but keeps the state reached. *)
Definition bind {A B} (m : M A) (f : A → M B) : M B := λ w,
  match m w with
  | (Ok a, w') => f a w'
  | (Err e, w') => (Err e, w')
  end.

Notation "'let!' x := m 'in' k" := (bind m (λ x, k))
  (at level 10, x pattern, m at level 100, k at level 200).
Notation "m >> k" := (bind m (λ _, k))
  (at level 100, k at level 200, right associativity).

Definition throw {A} (e : exn) : M A := λ w, (Err e, w).
Definition tell (e : event) : M unit := λ w, (Ok (), emit e w).
Definition lift {A} (r : result A) : M A := λ w, (r, w).
Definition get_this : M Config := λ w, (Ok (this w), w).
(** [this.pluginCache.set(k, v)]. *)
Definition cache_put (k : PackageName) (v : value) : M unit :=
  λ w, (Ok (), cache_set k v w).

(** ** The plugin loader *)

Section Loader.
Variable host : Host.

(** [v.default]: reading a property of [undefined] or [null] throws. *)
Definition get_default (v : value) : result value :=
  match v with
  | VUndefined | VNull =>
      Err (TypeError "Cannot read property 'default' of undefined")
  | VObject ref =>
      Ok (match heap host !! ref with
          | Some o => prop_default o
          | None => VUndefined
          end)
  | _ => Ok VUndefined
  end.

(** [v[CONFIG]]. *)
Definition get_CONFIG (v : value) : result value :=
  match v with
  | VUndefined | VNull =>
      Err (TypeError "Cannot read property 'Symbol(parcel-plugin-config)' of undefined")
  | VObject ref =>
      Ok (match heap host !! ref with
          | Some o => prop_CONFIG o
          | None => VUndefined
          end)
  | _ => Ok VUndefined
  end.

(** [pkg.engines && pkg.engines.parcel], when it is truthy. *)
Definition parcelVersionRange (pkg : package_json) : option string :=
  match engines pkg ≫= (.!! "parcel") with
  | Some range => if truthy_string range then Some range else None
  | None => None
  end.

Definition missing_engines_warning (pluginName : PackageName) : string :=
  "The plugin " +:+ dquote +:+ pluginName +:+ dquote +:+
  " needs to specify a `package.json#engines.parcel` field with the supported Parcel version range.".

Definition incompatible_message (pluginName : PackageName) (range : string) : string :=
  "The plugin " +:+ dquote +:+ pluginName +:+ dquote +:+
  " is not compatible with the current version of Parcel. Requires " +:+
  dquote +:+ range +:+ dquote +:+ " but the current version is " +:+
  dquote +:+ PARCEL_VERSION host +:+ dquote +:+ ".".

(** [this.pluginCache.get(pluginName)] passed through [if (cached)]. *)
Definition cache_hit (c : Config) (pluginName : PackageName) : option value :=
  match pluginCache c !! pluginName with
  | Some cached => if truthy cached then Some cached else None
  | None => None
  end.

(** Where a call of [loadPlugin] stands when it first gives up control. *)
Inductive started : Type :=
  | Cached (plugin : value)
  | Awaiting (pluginName : PackageName).

(** [loadPlugin] up to its [await]: the cache test and, on a miss, the call
    of [localRequire.resolve]. *)
Definition loadPlugin_start (pluginName : PackageName) (w : world) : started * world :=
  match cache_hit (this w) pluginName with
  | Some cached => (Cached cached, w)
  | None => (Awaiting pluginName, emit (EResolve pluginName (configPath (this w))) w)
  end.

(** The version gate: lines 66 to 80. *)
Definition check_engines (pluginName : PackageName) (pkg : package_json) : M unit :=
  match parcelVersionRange pkg with
  | None => tell (EWarn (missing_engines_warning pluginName))
  | Some range =>
      tell (ESatisfies (PARCEL_VERSION host) range) >>
      if satisfies host (PARCEL_VERSION host) range
      then ret ()
      else throw (Error (incompatible_message pluginName range))
  end.

(** Lines 83 to 85: the module, its [default] export when that is truthy,
    and of that the [CONFIG] property. *)
Definition require_plugin (resolved : FilePath) : result value :=
  match require host resolved with
  | Err e => Err e
  | Ok plugin =>
      match get_default plugin with
      | Err e => Err e
      | Ok d => get_CONFIG (if truthy d then d else plugin)
      end
  end.

(** [loadPlugin] from the moment the resolution settles. *)
Definition loadPlugin_resume (pluginName : PackageName) : M value :=
  let! c := get_this in
  let! (resolved, pkg) := lift (localResolve host pluginName (configPath c)) in
  check_engines pluginName pkg >>
  tell (ERequire resolved) >>
  let! plugin := lift (require_plugin resolved) in
  cache_put pluginName plugin >>
  ret plugin.

(** One call of [loadPlugin] that nothing else interleaves with. *)
Definition loadPlugin (pluginName : PackageName) : M value := λ w,
  match loadPlugin_start pluginName w with
  | (Cached plugin, w') => (Ok plugin, w')
  | (Awaiting name, w') => loadPlugin_resume name w'
  end.

(** [plugins.map(pluginName => this.loadPlugin(pluginName))]: every call runs
    up to its [await] before any of them continues. *)
Fixpoint start_all (plugins : Pipeline) (w : world) : list started * world :=
  match plugins with
  | [] => ([], w)
  | pluginName :: plugins' =>
      let '(s, w1) := loadPlugin_start pluginName w in
      let '(ss, w2) := start_all plugins' w1 in
      (s :: ss, w2)
  end.

(** The calls that still wait, with their positions in the pipeline. *)
Fixpoint pending_from (i : nat) (calls : list started) : list (nat * PackageName) :=
  match calls with
  | [] => []
  | Cached _ :: calls' => pending_from (S i) calls'
  | Awaiting pluginName :: calls' => (i, pluginName) :: pending_from (S i) calls'
  end.

Definition pending (calls : list started) : list (nat * PackageName) :=
  pending_from 0 calls.

(** The promises of [Promise.all] while the resolutions settle, one per step
    and in the order the host decides: the continuation of the call whose
    resolution settles runs to its end. When it returns a plugin, its promise
    is fulfilled; when it throws, [Promise.all] rejects with that error there
    and then, and the calls that still wait are left in flight: they
    continue after the caller has taken over and are no part of this call.
    [fuel] bounds the steps; the number of calls is enough. *)
Fixpoint settle_all (fuel : nat) (calls : list started) (w : world)
    : result (list started) * world :=
  match fuel with
  | 0 => (Ok calls, w)
  | S fuel' =>
      let waiting := pending calls in
      match waiting !! (settle_next host (waiting.*2) `mod` length waiting) with
      | None => (Ok calls, w)
      | Some (i, pluginName) =>
          match loadPlugin_resume pluginName w with
          | (Ok plugin, w') => settle_all fuel' (<[i := Cached plugin]> calls) w'
          | (Err e, w') => (Err e, w')
          end
      end
  end.

(** The values of the promises once none of them waits. *)
Fixpoint fulfilled (calls : list started) : list value :=
  match calls with
  | [] => []
  | Cached plugin :: calls' => plugin :: fulfilled calls'
  | Awaiting _ :: calls' => fulfilled calls'
  end.

(** What [Promise.all] gives when the promises settle in the order of the
    list: the values, or the first rejection in that order. *)
Fixpoint promise_all {A} (settled : list (result A)) : result (list A) :=
  match settled with
  | [] => Ok []
  | Err e :: _ => Err e
  | Ok a :: settled' =>
      match promise_all settled' with
      | Ok l => Ok (a :: l)
      | Err e => Err e
      end
  end.

(** [Promise.all(plugins.map(...))]: the world of the outcome is the world at
    the moment the promise settles. *)
Definition loadPlugins (plugins : Pipeline) : M (list value) := λ w,
  let '(calls, w1) := start_all plugins w in
  match settle_all (length calls) calls w1 with
  | (Ok calls', w2) => (Ok (fulfilled calls'), w2)
  | (Err e, w2) => (Err e, w2)
  end.

End Loader.

(** ** The phase accessors *)

Section Accessors.
Variable host : Host.

Definition no_resolvers : exn :=
  Error "No resolver plugins specified in .parcelrc config".
Definition no_bundler : exn :=
  Error "No bundler specified in .parcelrc config".
Definition no_namers : exn :=
  Error "No namer plugins specified in .parcelrc config".
Definition no_transformers (filePath : FilePath) : exn :=
  Error ("No transformers found for " +:+ dquote +:+ filePath +:+ dquote +:+ ".").
Definition no_packager (filePath : FilePath) : exn :=
  Error ("No packager found for " +:+ dquote +:+ filePath +:+ dquote +:+ ".").

Definition getResolvers : M (list value) :=
  let! c := get_this in
  if bool_decide (length (resolvers c) = 0)
  then throw no_resolvers
  else loadPlugins host (resolvers c).

Definition getTransformers (filePath : FilePath) : M (list value) :=
  let! c := get_this in
  let! transformers := lift (matchGlobMapPipelines host filePath (transforms c)) in
  if bool_decide (length transformers = 0)
  then throw (no_transformers filePath)
  else loadPlugins host transformers.

Definition getBundler : M value :=
  let! c := get_this in
  if negb (truthy_string (bundler c))
  then throw no_bundler
  else loadPlugin host (bundler c).

Definition getNamers : M (list value) :=
  let! c := get_this in
  if bool_decide (length (namers c) = 0)
  then throw no_namers
  else loadPlugins host (namers c).

Definition getRuntimes (context : string) : M (list value) :=
  let! c := get_this in
  match Obj.get (runtimes c) context with
  | None => ret []
  | Some runtimes => loadPlugins host runtimes
  end.

Definition getPackager (filePath : FilePath) : M value :=
  let! c := get_this in
  match matchGlobMap host filePath (packagers c) with
  | Some packagerName =>
      if truthy_string packagerName
      then loadPlugin host packagerName
      else throw (no_packager filePath)
  | None => throw (no_packager filePath)
  end.

Definition getOptimizers (filePath : FilePath) : M (list value) :=
  let! c := get_this in
  let! optimizers := lift (matchGlobMapPipelines host filePath (optimizers c)) in
  loadPlugins host optimizers.

End Accessors.

(** ** Overlapping calls of [loadPlugin] *)

(** The calls in flight on one instance: each [Call] runs a new call up to its
    [await], each [Settle] lets one waiting call run to its end. *)
Module Sched.

Record t : Type := {
  now : world;
  waiting : list PackageName;
  done : list (PackageName * result value)
}.





End Sched.

(** How often the trace asks for the resolution of [pluginName]. *)
Fixpoint resolutions (pluginName : PackageName) (t : list event) : nat :=
  match t with
  | [] => 0
  | EResolve name _ :: t' =>
      (if bool_decide (name = pluginName) then 1 else 0) + resolutions pluginName t'
  | _ :: t' => resolutions pluginName t'
  end.

(** How often the trace checks the host version against a range. *)
Fixpoint version_checks (t : list event) : nat :=
  match t with
  | [] => 0
  | ESatisfies _ _ :: t' => 1 + version_checks t'
  | _ :: t' => version_checks t'
  end.

(** ** What a continuation does, apart from the world it runs in *)

(** A world that has done nothing yet and caches nothing. *)
Definition blank (base : FilePath) : world :=
  {| this := constructor empty_config base; trace := [] |}.

(** Outcome and events of the continuation of [loadPlugin], read off a run
    in a blank world. *)
Definition resume_outcome (host : Host) (pluginName : PackageName)
    (base : FilePath) : result value * list event :=
  let '(r, w) := loadPlugin_resume host pluginName (blank base) in
  (r, trace w).

(** The events are appended; a plugin is stored, an error stores nothing. *)
Definition commit (pluginName : PackageName) (r : result value)
    (events : list event) (w : world) : world :=
  let w' := match r with
            | Ok plugin => cache_set pluginName plugin w
            | Err _ => w
            end in
  {| this := this w'; trace := trace w ++ events |}.

(** The world after [n] more calls of [loadPlugin], one after the other. *)
Fixpoint again (host : Host) (pluginName : PackageName) (n : nat)
    (w : world) : world :=
  match n with
  | 0 => w
  | S n' => again host pluginName n' (loadPlugin host pluginName w).2
  end.

(** ** Reference behaviour of the libraries, for concrete runs *)

Module Model.

(** Node's POSIX [path.basename] with one argument: the last segment that is
    not empty, or the empty string. [cur] is the segment being read, [last]
    the last complete one. *)
Fixpoint basename_go (path cur last : string) : string :=
  match path with
  | EmptyString => if bool_decide (cur = "") then last else cur
  | String c path' =>
      if bool_decide (c = "/"%char)
      then basename_go path' "" (if bool_decide (cur = "") then last else cur)
      else basename_go path' (cur +:+ String c "") last
  end.

Definition basename (path : string) : string := basename_go path "" "".

(** micromatch's [isMatch] on patterns made of literal characters and single
    stars: a star stands for any run of characters other than '/'; at the
    start of a segment it accepts neither a leading dot nor the end of the
    string. The empty string matches nothing. *)
Fixpoint glob (pattern : string) (segment_start : bool) (str : string) : bool :=
  match pattern with
  | EmptyString => bool_decide (str = "")
  | String "*"%char pattern' =>
      let refused :=
        match str with
        | String "."%char _ | EmptyString => true
        | _ => false
        end in
      if segment_start && refused then false
      else
        (fix star (str : string) : bool :=
           glob pattern' false str ||
           match str with
           | String c str' => negb (bool_decide (c = "/"%char)) && star str'
           | EmptyString => false
           end) str
  | String c pattern' =>
      match str with
      | String d str' =>
          bool_decide (c = d) && glob pattern' (bool_decide (c = "/"%char)) str'
      | EmptyString => false
      end
  end.

Definition isMatch (str pattern : string) : bool :=
  negb (bool_decide (str = "")) && glob pattern true str.

(** Splitting at a separator character. *)
Fixpoint split_go (sep : ascii) (s cur : string) : list string :=
  match s with
  | EmptyString => [cur]
  | String c s' =>
      if bool_decide (c = sep) then cur :: split_go sep s' ""
      else split_go sep s' (cur +:+ String c "")
  end.

Definition version : Type := N * N * N.

Definition parse_version (s : string) : option version :=
  match split_go "."%char s "" with
  | [a; b; c] =>
      major ← Obj.numeral a; minor ← Obj.numeral b; patch ← Obj.numeral c;
      Some (major, minor, patch)
  | _ => None
  end.

Definition version_leb (v w : version) : bool :=
  let '(a, b, c) := v in
  let '(a', b', c') := w in
  ((a <? a') || ((a =? a') && ((b <? b') || ((b =? b') && (c <=? c')))))%N.

Definition version_ltb (v w : version) : bool := negb (version_leb w v).

(** semver's [satisfies] on plain versions and on the ranges [x.y.z],
    [^x.y.z], [~x.y.z], [>=x.y.z] and [*]. *)
Definition satisfies (v range : string) : bool :=
  match parse_version v with
  | None => false
  | Some ver =>
      match range with
      | EmptyString | "*" => true
      | String "^"%char r =>
          match parse_version r with
          | Some (a, b, c) =>
              let upper :=
                if (0 <? a)%N then (a + 1, 0, 0)%N
                else if (0 <? b)%N then (0, b + 1, 0)%N
                else (0, 0, c + 1)%N in
              version_leb (a, b, c) ver && version_ltb ver upper
          | None => false
          end
      | String "~"%char r =>
          match parse_version r with
          | Some (a, b, c) =>
              version_leb (a, b, c) ver && version_ltb ver (a, b + 1, 0)%N
          | None => false
          end
      | String ">"%char (String "="%char r) =>
          match parse_version r with
          | Some lower => version_leb lower ver
          | None => false
          end
      | r =>
          match parse_version r with
          | Some exact => bool_decide (exact = ver)
          | None => false
          end
      end
  end.

End Model.

(** ** What the specification calls first match and matched queue *)

(** The value of the first entry of [l] whose pattern matches. *)
Fixpoint first_match {T} (host : Host) (filePath : FilePath)
    (l : list (Glob * T)) : option T :=
  match l with
  | [] => None
  | (pattern, v) :: l' =>
      if isGlobMatch host filePath pattern then Some v
      else first_match host filePath l'
  end.

(** The pipelines of the entries that match, in enumeration order. *)
Definition matching (host : Host) (filePath : FilePath)
    (globMap : Obj.t Pipeline) : list Pipeline :=
  (List.filter (λ e, isGlobMatch host filePath e.1) (Obj.entries globMap)).*2.

(** A pipeline without its markers. *)
Definition without_spread (p : Pipeline) : Pipeline :=
  List.filter (λ x, negb (bool_decide (x = spread))) p.

(** The words of the specification for two matching entries: the entries of
    the first pipeline other than the marker, with the second pipeline at the
    position of the marker. *)
Definition spliced (first second : Pipeline) : Pipeline :=
  match indexOf spread first with
  | Some i =>
      without_spread (take i first) ++ second
        ++ without_spread (drop (S i) first)
  | None => first
  end.

(** The number of spread markers of a pipeline. *)
Definition spread_count (p : Pipeline) : nat :=
  length (List.filter (λ x, bool_decide (x = spread)) p).

(** ** A small installation, for concrete runs *)

Module Demo.

Definition engines_parcel (range : string) : package_json :=
  {| engines := Some {[ "parcel" := range ]} |}.

(** Three packages are installed: a transformer whose module exports its
    capability object behind [default], a package whose module has no
    [CONFIG] export, and a package without an [engines] field. *)
Definition resolve (name : PackageName) (base : FilePath)
    : result (FilePath * package_json) :=
  if bool_decide (name = "parcel-transformer-js")
  then Ok ("/app/node_modules/parcel-transformer-js/index.js",
           engines_parcel "^2.0.0")
  else if bool_decide (name = "parcel-plugin-bare")
  then Ok ("/app/node_modules/parcel-plugin-bare/index.js",
           engines_parcel "^2.0.0")
  else if bool_decide (name = "parcel-plugin-legacy")
  then Ok ("/app/node_modules/parcel-plugin-legacy/index.js",
           {| engines := None |})
  else Err (Error ("Cannot find module '" +:+ name +:+ "'")).

Definition load (resolved : FilePath) : result value :=
  if bool_decide (resolved = "/app/node_modules/parcel-transformer-js/index.js")
  then Ok (VObject 1)
  else if bool_decide (resolved = "/app/node_modules/parcel-plugin-bare/index.js")
  then Ok (VObject 4)
  else if bool_decide (resolved = "/app/node_modules/parcel-plugin-legacy/index.js")
  then Ok (VObject 5)
  else Err (Error ("Cannot find module '" +:+ resolved +:+ "'")).

Definition objects : gmap nat module_object :=
  <[1 := {| prop_default := VObject 2; prop_CONFIG := VUndefined |}]>
  (<[2 := {| prop_default := VUndefined; prop_CONFIG := VObject 3 |}]>
  (<[4 := {| prop_default := VUndefined; prop_CONFIG := VUndefined |}]>
  (<[5 := {| prop_default := VUndefined; prop_CONFIG := VObject 6 |}]> ∅))).

(** The host when the core has the given version; resolutions settle in the
    order of the requests. *)
Definition host (version : string) : Host :=
  {| isMatch := Model.isMatch;
     basename := Model.basename;
     satisfies := Model.satisfies;
     PARCEL_VERSION := version;
     localResolve := resolve;
     require := load;
     heap := objects;
     settle_next := λ _, 0 |}.

(** The same installation on a host where the resolution asked for last
    settles first. *)
Definition host_last_first (version : string) : Host :=
  {| isMatch := Model.isMatch;
     basename := Model.basename;
     satisfies := Model.satisfies;
     PARCEL_VERSION := version;
     localResolve := resolve;
     require := load;
     heap := objects;
     settle_next := λ waiting, length waiting - 1 |}.

(** Packagers and transforms as a .parcelrc may declare them. *)
Definition css_packagers : Obj.t PackageName :=
  [("*.css", "pkgA"); ("*.module.css", "pkgB")].

Definition numeric_packagers : Obj.t PackageName :=
  [("*", "pkgA"); ("1", "pkgB")].

Definition css_transforms : Obj.t Pipeline :=
  [("*.module.css", ["parcel-transformer-modules"; "..."; "parcel-transformer-minify"]);
   ("*.css", ["parcel-transformer-css"]);
   ("*.js", ["parcel-transformer-js"])].

Definition twice_spread_transforms : Obj.t Pipeline :=
  [("*.module.css", ["..."; "parcel-transformer-modules"]);
   ("*.css", ["..."; "parcel-transformer-css"; "..."]);
   ("*", ["parcel-transformer-raw"])].

(** A fresh instance and an empty trace. *)
Definition boot (config : ParcelConfig) : world :=
  {| this := constructor config "/app/.parcelrc"; trace := [] |}.

End Demo.

(** ** Vocabulary of the further properties *)

(** The host lets the resolutions settle in the order of the requests. *)
Definition in_request_order (host : Host) : Prop :=
  ∀ waiting, settle_next host waiting = 0.

(** A pipeline with one marker, given by what stands before and after it. *)
Definition with_spread (layer : Pipeline * Pipeline) : Pipeline :=
  layer.1 ++ spread :: layer.2.

(** Layers wrapped around a core, outermost first. *)
Fixpoint nest (layers : list (Pipeline * Pipeline)) (core : Pipeline) : Pipeline :=
  match layers with
  | [] => core
  | (before, after) :: layers' => before ++ nest layers' core ++ after
  end.

(** How often a pipeline names a plugin. *)
Fixpoint occurrences (pluginName : PackageName) (plugins : Pipeline) : nat :=
  match plugins with
  | [] => 0
  | name :: plugins' =>
      (if bool_decide (name = pluginName) then 1 else 0)
      + occurrences pluginName plugins'
  end.

(** The fields that the constructor sets from the configuration record. *)
Definition same_configuration (c c' : Config) : Prop :=
  configPath c = configPath c'
  ∧ resolvers c = resolvers c'
  ∧ transforms c = transforms c'
  ∧ bundler c = bundler c'
  ∧ namers c = namers c'
  ∧ runtimes c = runtimes c'
  ∧ packagers c = packagers c'
  ∧ optimizers c = optimizers c'
  ∧ reporters c = reporters c'.

(** What the call of [loadPlugins] for one name stands at after the
    synchronous part, read off the cache of the world the calls start in. *)
Definition call_of (c : Config) (pluginName : PackageName) : started :=
  match cache_hit c pluginName with
  | Some cached => Cached cached
  | None => Awaiting pluginName
  end.

(** Whether a call for [pluginName] is among the waiting ones. *)
Fixpoint awaited (pluginName : PackageName) (calls : list started) : bool :=
  match calls with
  | [] => false
  | Cached _ :: calls' => awaited pluginName calls'
  | Awaiting name :: calls' =>
      bool_decide (name = pluginName) || awaited pluginName calls'
  end.

(** What a waiting or an immediate call settles to. *)
Definition settles_to (host : Host) (base : FilePath) (call : started)
    : result value :=
  match call with
  | Cached plugin => Ok plugin
  | Awaiting pluginName => (resume_outcome host pluginName base).1
  end.

(** A configuration over the packages of the demo installation. *)
Definition app_config : ParcelConfig :=
  {| cfg_resolvers := Some ["parcel-plugin-legacy"];
     cfg_transforms := Some [("*.js", ["parcel-transformer-js"; "parcel-plugin-legacy"])];
     cfg_bundler := Some "parcel-plugin-legacy";
     cfg_namers := Some ["parcel-plugin-legacy"];
     cfg_runtimes := None;
     cfg_packagers := Some [("*.js", "parcel-transformer-js")];
     cfg_optimizers := None;
     cfg_reporters := None |}.

(** ** The graph dump: names of the root assets of a bundle *)

Module Dump.

(** [parts.lastIndexOf(x)]; [None] is [-1]. *)
Fixpoint lastIndexOf (x : string) (parts : list string) : option nat :=
  match parts with
  | [] => None
  | y :: parts' =>
      match lastIndexOf x parts' with
      | Some i => Some (S i)
      | None => if bool_decide (y = x) then Some 0 else None
      end
  end.

(** [filePath.split(path.sep)] for the one-character separator of the
    platform. *)
Definition split (sep : ascii) (filePath : FilePath) : list string :=
  Model.split_go sep filePath "".

(** The function mapped over the root assets of a bundle (lines 65 to 71 of
    dumpGraphToGraphViz.js); [None] is [undefined]. The separator and
    [basename] are those of the platform's [path]. *)
Definition asset_name (sep : ascii) (basename : FilePath → string)
    (filePath : FilePath) : option string :=
  let parts := split sep filePath in
  match lastIndexOf "node_modules" parts with
  | Some index => parts !! (index + 1)
  | None => Some (basename filePath)
  end.

(** What [getEnvDescription] reads of an environment: [env.context],
    [env.engines.browsers] and [env.engines.node], the last two when
    present. *)
Record Environment : Type := {
  context : string;
  engines_browsers : option (list string);
  engines_node : option string
}.

(** [array.join(sep)] on strings. *)
Fixpoint join (sep : string) (l : list string) : string :=
  match l with
  | [] => ""
  | [x] => x
  | x :: l' => x +:+ sep +:+ join sep l'
  end.

Definition getEnvDescription (env : Environment) : string :=
  match engines_browsers env with
  | Some browsers => context env +:+ ": " +:+ join ", " browsers
  | None =>
      match engines_node env with
      | Some node => if truthy_string node then "node: " +:+ node else ""
      | None => ""
      end
  end.

End Dump.

(** * Properties *)

(** Closed decidable side conditions of the concrete runs. *)
Ltac by_computing :=
  first [ refine (bool_decide_unpack _ _); vm_compute; exact I
        | vm_compute; reflexivity ].

(** ** Objects *)

Lemma insert_index_perm {T} n (e : string * T) l :
  Obj.insert_index n e l ≡ₚ (n, e) :: l.
Proof.
  induction l as [|[m e'] l IH]; simpl; [done|].
  destruct (n <? m)%N; [done|].
  rewrite IH. apply Permutation_swap.
Qed.

Lemma entries_perm {T} (o : Obj.t T) : Obj.entries o ≡ₚ o.
Proof.
  unfold Obj.entries.
  induction o as [|[k v] o IH]; simpl; [done|].
  destruct (Obj.array_index k) as [n|].
  - rewrite insert_index_perm. simpl. by rewrite IH.
  - rewrite <- Permutation_middle. by rewrite IH.
Qed.

Lemma entries_plain {T} (o : Obj.t T) : Obj.plain o → Obj.entries o = o.
Proof.
  unfold Obj.plain, Obj.entries.
  induction o as [|[k v] o IH]; simpl; [done|].
  intros H. apply Forall_cons in H as [Hk Ho]. simpl in Hk.
  rewrite Hk. specialize (IH Ho).
  assert (Hnil : Obj.index_entries o = []).
  { clear -Ho. induction o as [|[k' v'] o IH]; simpl; [done|].
    apply Forall_cons in Ho as [Hk Ho]. simpl in Hk. rewrite Hk. auto. }
  rewrite Hnil in *. simpl in *. by rewrite IH.
Qed.

Lemma get_elem_of {T} (o : Obj.t T) k v :
  Obj.wf o → (k, v) ∈ o → Obj.get o k = Some v.
Proof.
  unfold Obj.wf.
  induction o as [|[k' v'] o IH]; simpl; intros Hnd Hin.
  - by apply elem_of_nil in Hin.
  - apply NoDup_cons in Hnd as [Hk' Hnd].
    apply elem_of_cons in Hin as [Heq|Hin].
    + inversion Heq; subst. by rewrite bool_decide_eq_true_2.
    + rewrite bool_decide_eq_false_2; [by apply IH|].
      intros ->. apply Hk'. apply list_elem_of_fmap. by exists (k, v).
Qed.

Lemma get_entries {T} (o : Obj.t T) e :
  Obj.wf o → e ∈ Obj.entries o → Obj.get o e.1 = Some e.2.
Proof.
  intros Hwf Hin. destruct e as [k v]. apply get_elem_of; [done|].
  by rewrite <- (entries_perm o).
Qed.

(** ** Matching *)

Section MatchingFacts.
Variable host : Host.

Lemma loop_first_match {T} filePath (o : Obj.t T) (l : list (Glob * T)) :
  (∀ e, e ∈ l → Obj.get o e.1 = Some e.2) →
  matchGlobMap_loop host filePath o (l.*1) = first_match host filePath l.
Proof.
  induction l as [|[p v] l IH]; simpl; intros Hget; [done|].
  destruct (isGlobMatch host filePath p).
  - apply (Hget (p, v)). apply elem_of_cons. by left.
  - apply IH. intros e He. apply Hget. apply elem_of_cons. by right.
Qed.

Lemma collect_filter filePath (o : Obj.t Pipeline) (l : list (Glob * Pipeline)) :
  (∀ e, e ∈ l → Obj.get o e.1 = Some e.2) →
  collect_matches host filePath o (l.*1)
  = (List.filter (λ e, isGlobMatch host filePath e.1) l).*2.
Proof.
  induction l as [|[p v] l IH]; intros Hget; [done|].
  assert (Hl : ∀ e, e ∈ l → Obj.get o e.1 = Some e.2).
  { intros e He. apply Hget. apply elem_of_cons. by right. }
  rewrite fmap_cons. cbn [collect_matches List.filter fst].
  rewrite (IH Hl).
  destruct (isGlobMatch host filePath p); [|done].
  rewrite fmap_cons. f_equal.
  assert (Hp : Obj.get o p = Some v).
  { apply (Hget (p, v)). apply elem_of_cons. by left. }
  by rewrite Hp.
Qed.

(** On a well-formed object the loop of [matchGlobMap] returns the value of
    the first matching entry in enumeration order. *)
Lemma matchGlobMap_entries {T} filePath (globMap : Obj.t T) :
  Obj.wf globMap →
  matchGlobMap host filePath globMap
  = first_match host filePath (Obj.entries globMap).
Proof.
  intros Hwf. unfold matchGlobMap, Obj.for_in.
  apply loop_first_match. intros e He. by apply get_entries.
Qed.

Lemma collect_matching filePath (globMap : Obj.t Pipeline) :
  Obj.wf globMap →
  collect_matches host filePath globMap (Obj.for_in globMap)
  = matching host filePath globMap.
Proof.
  intros Hwf. unfold matching, Obj.for_in.
  apply collect_filter. intros e He. by apply get_entries.
Qed.

End MatchingFacts.

(** ** Flattening *)

Lemma indexOf_None x l : indexOf x l = None ↔ x ∉ l.
Proof.
  induction l as [|y l IH]; simpl.
  - split; [intros _; apply not_elem_of_nil|done].
  - case_bool_decide as Hy.
    + split; [done|]. intros Hn. exfalso. apply Hn. subst. apply elem_of_cons. by left.
    + rewrite not_elem_of_cons. destruct (indexOf x l); simpl.
      * split; [done|]. intros [_ Hn]. by apply IH in Hn.
      * split; [|done]. intros _. split; [congruence|]. by apply IH.
Qed.

Lemma indexOf_app x before after :
  x ∉ before → indexOf x (before ++ x :: after) = Some (length before).
Proof.
  induction before as [|y l IH]; simpl; intros Hn.
  - by rewrite bool_decide_eq_true_2.
  - apply not_elem_of_cons in Hn as [Hxy Hn].
    rewrite bool_decide_eq_false_2 by congruence.
    by rewrite IH.
Qed.

Lemma indexOf_Some x l i :
  indexOf x l = Some i → l = take i l ++ x :: drop (S i) l ∧ x ∉ take i l.
Proof.
  revert i. induction l as [|y l IH]; simpl; intros i H; [done|].
  case_bool_decide as Hy.
  - inversion H; subst. simpl. rewrite drop_0. split; [done|]. apply not_elem_of_nil.
  - destruct (indexOf x l) as [j|] eqn:Hj; simpl in H; [|done].
    inversion H; subst. destruct (IH j eq_refl) as [Hl Hn]. simpl.
    split; [by rewrite <- Hl|]. apply not_elem_of_cons. split; [congruence|done].
Qed.

Lemma includes_true x l : includes x l = true ↔ x ∈ l.
Proof. unfold includes. apply bool_decide_eq_true. Qed.

Lemma includes_false x l : includes x l = false ↔ x ∉ l.
Proof. unfold includes. apply bool_decide_eq_false. Qed.

(** The only error of [flatten] is the spread error. *)
Lemma flatten_Err matches e : (flatten matches).1 = Err e → e = spread_error.
Proof.
  revert e. induction matches as [|p q IH]; simpl; intros e; [done|].
  destruct (indexOf spread p) as [i|].
  - destruct (flatten q) as [[inner|e'] rest]; simpl in *.
    + destruct (includes _ _); simpl; congruence.
    + intros [= <-]. by apply IH.
  - destruct (includes spread p); simpl; congruence.
Qed.

(** A pipeline that [flatten] returns has no spread marker left. *)
Lemma flatten_Ok matches p : (flatten matches).1 = Ok p → spread ∉ p.
Proof.
  destruct matches as [|p0 q]; simpl.
  - intros [= <-]. apply not_elem_of_nil.
  - destruct (indexOf spread p0) as [i|].
    + destruct (flatten q) as [[inner|e'] rest]; simpl; [|done].
      destruct (includes _ _) eqn:Hin; simpl; [done|].
      intros [= <-]. by apply includes_false.
    + destruct (includes spread p0) eqn:Hin; simpl; [done|].
      intros [= <-]. by apply includes_false.
Qed.

Lemma spread_count_app p q :
  spread_count (p ++ q) = spread_count p + spread_count q.
Proof. unfold spread_count. by rewrite List.filter_app, length_app. Qed.

Lemma spread_count_notin p : spread ∉ p → spread_count p = 0.
Proof.
  unfold spread_count. induction p as [|y l IH]; simpl; intros Hn; [done|].
  apply not_elem_of_cons in Hn as [Hy Hn].
  rewrite bool_decide_eq_false_2 by congruence. auto.
Qed.

Lemma spread_count_ge_2 p i :
  indexOf spread p = Some i → 2 ≤ spread_count p → spread ∈ drop (S i) p.
Proof.
  intros Hi Hc. destruct (indexOf_Some _ _ _ Hi) as [Hp Hn].
  destruct (decide (spread ∈ drop (S i) p)) as [|Hnot]; [done|exfalso].
  rewrite Hp in Hc.
  rewrite spread_count_app, (spread_count_notin _ Hn) in Hc.
  change (spread :: drop (S i) p) with ([spread] ++ drop (S i) p) in Hc.
  rewrite spread_count_app, (spread_count_notin _ Hnot) in Hc.
  vm_compute in Hc. lia.
Qed.

Lemma spread_count_pos p : 1 ≤ spread_count p → ∃ i, indexOf spread p = Some i.
Proof.
  intros Hc. destruct (indexOf spread p) as [i|] eqn:Hi; [by exists i|exfalso].
  apply indexOf_None in Hi. unfold spread_count in Hc.
  induction p as [|y l IH]; simpl in Hc; [lia|].
  apply not_elem_of_cons in Hi as [Hy Hn].
  rewrite bool_decide_eq_false_2 in Hc by congruence. auto.
Qed.

Lemma slice_from_after (before after : Pipeline) x :
  slice_from (length before + 1) (before ++ x :: after) = after.
Proof. unfold slice_from. induction before as [|y l IH]; simpl; [by rewrite drop_0|done]. Qed.

Lemma slice_to_before (before after : Pipeline) :
  slice_to (length before) (before ++ after) = before.
Proof. unfold slice_to. apply take_app_length. Qed.

(** A queue in which the recursion reaches a pipeline with two markers. *)
Lemma flatten_two_spreads (reached : list Pipeline) culprit rest :
  Forall (λ p, 1 ≤ spread_count p) reached →
  2 ≤ spread_count culprit →
  (flatten (reached ++ culprit :: rest)).1 = Err spread_error.
Proof.
  intros Hreached Hc.
  induction Hreached as [|p reached Hp _ IH]; cbn [app flatten].
  - destruct (spread_count_pos culprit) as [i Hi]; [lia|]. rewrite Hi.
    destruct (flatten rest) as [[inner|e] rest'] eqn:Hrest.
    + assert (Hin : includes spread
                (slice_to i culprit ++ inner ++ slice_from (i + 1) culprit) = true).
      { apply includes_true. rewrite !elem_of_app. right. right.
        unfold slice_from. replace (i + 1) with (S i) by lia.
        by apply spread_count_ge_2. }
      by rewrite Hin.
    + simpl. f_equal. apply (flatten_Err rest). by rewrite Hrest.
  - destruct (spread_count_pos p Hp) as [i Hi]. rewrite Hi.
    destruct (flatten (reached ++ culprit :: rest)) as [[inner|e] rest'];
      simpl in IH; [done|]. by rewrite IH.
Qed.

Lemma spread_count_elem p : spread ∈ p → 1 ≤ spread_count p.
Proof.
  intros Hin. destruct (decide (1 ≤ spread_count p)) as [|Hn]; [done|exfalso].
  assert (Hi : indexOf spread p = None).
  { destruct (indexOf spread p) as [i|] eqn:Hi; [|done].
    destruct (indexOf_Some _ _ _ Hi) as [Hp _]. rewrite Hp in Hn.
    change (spread :: drop (S i) p) with ([spread] ++ drop (S i) p) in Hn.
    rewrite !spread_count_app in Hn. vm_compute (spread_count [spread]) in Hn. lia. }
  by apply indexOf_None in Hi.
Qed.

(** * The claims *)


(** C7. A path matches a pattern exactly when the pattern matches the whole
    path or matches its basename; so a pattern that matches only the
    basename, or only the whole path, is a match. *)
Theorem isGlobMatch_full_or_basename (host : Host) (F : FilePath) (P : Glob) :
  isGlobMatch host F P = true
  ↔ isMatch host F P = true ∨ isMatch host (basename host F) P = true.
Proof. unfold isGlobMatch. apply orb_true_iff. Qed.

(** With the reference matcher: "*.css" matches "src/x.css" through the
    basename only, and "src/*.js" matches "src/a.js" through the path only. *)
Example isGlobMatch_either_way :
  let host := Demo.host "2.3.1" in
  (isMatch host "src/x.css" "*.css" = false
   ∧ isMatch host (basename host "src/x.css") "*.css" = true
   ∧ isGlobMatch host "src/x.css" "*.css" = true)
  ∧ (isMatch host "src/a.js" "src/*.js" = true
     ∧ isMatch host (basename host "src/a.js") "src/*.js" = false
     ∧ isGlobMatch host "src/a.js" "src/*.js" = true).
Proof. by vm_compute. Qed.

(** C5, as stated, fails: over {"*": "pkgA", "1": "pkgB"} and the path "1"
    both patterns match and "*" is declared first, but the loop visits the
    array-index key "1" first and returns "pkgB". *)
Lemma matchGlobMap_visits_index_keys_first :
  Obj.wf Demo.numeric_packagers
  ∧ first_match (Demo.host "2.3.1") "1" Demo.numeric_packagers = Some "pkgA"
  ∧ matchGlobMap (Demo.host "2.3.1") "1" Demo.numeric_packagers = Some "pkgB".
Proof.
  split; [by_computing|by vm_compute].
Qed.

(** C5, amended. When no pattern of the mapping is an array index,
    [matchGlobMap] returns the value of the first matching pattern in
    declaration order, and null exactly when no pattern matches. *)
Theorem matchGlobMap_first_declared {T} (host : Host) (filePath : FilePath)
    (globMap : Obj.t T) :
  Obj.wf globMap →
  Obj.plain globMap →
  matchGlobMap host filePath globMap = first_match host filePath globMap
  ∧ (matchGlobMap host filePath globMap = None
     ↔ Forall (λ e, isGlobMatch host filePath e.1 = false) globMap).
Proof.
  intros Hwf Hplain.
  assert (Heq : matchGlobMap host filePath globMap
                = first_match host filePath globMap).
  { rewrite matchGlobMap_entries by done. by rewrite entries_plain. }
  split; [done|]. rewrite Heq. clear.
  induction globMap as [|[p v] l IH]; simpl.
  - split; [constructor|done].
  - destruct (isGlobMatch host filePath p) eqn:Hp.
    + split; [done|]. intros H. apply Forall_cons in H as [H _]. simpl in H. congruence.
    + rewrite IH. split; [by constructor|]. intros H. by apply Forall_cons in H as [_ H].
Qed.

(** Over {"*.css": "pkgA", "*.module.css": "pkgB"} the path "x.module.css"
    gets "pkgA". *)
Lemma matchGlobMap_first_declared_css :
  Obj.wf Demo.css_packagers
  ∧ Obj.plain Demo.css_packagers
  ∧ (matchGlobMap (Demo.host "2.3.1") "x.module.css" Demo.css_packagers
     = first_match (Demo.host "2.3.1") "x.module.css" Demo.css_packagers
     ∧ (matchGlobMap (Demo.host "2.3.1") "x.module.css" Demo.css_packagers = None
        ↔ Forall (λ e, isGlobMatch (Demo.host "2.3.1") "x.module.css" e.1 = false)
            Demo.css_packagers)).
Proof.
  assert (Hwf : Obj.wf Demo.css_packagers).
  { by_computing. }
  assert (Hplain : Obj.plain Demo.css_packagers).
  { by_computing. }
  split; [exact Hwf|]. split; [exact Hplain|].
  exact (matchGlobMap_first_declared (Demo.host "2.3.1") "x.module.css"
           Demo.css_packagers Hwf Hplain).
Defined.

Example matchGlobMap_css_pkgA :
  matchGlobMap (Demo.host "2.3.1") "x.module.css" Demo.css_packagers = Some "pkgA".
Proof. by vm_compute. Qed.

Lemma without_spread_clean p : spread ∉ p → without_spread p = p.
Proof.
  unfold without_spread. induction p as [|x p IH]; simpl; intros Hn; [done|].
  apply not_elem_of_cons in Hn as [Hx Hn].
  rewrite bool_decide_eq_false_2 by congruence. simpl. by rewrite IH.
Qed.

Lemma without_spread_app p q :
  without_spread (p ++ q) = without_spread p ++ without_spread q.
Proof. unfold without_spread. apply List.filter_app. Qed.

Lemma without_spread_no_spread p : spread ∉ without_spread p.
Proof.
  unfold without_spread. induction p as [|x p IH]; simpl; [apply not_elem_of_nil|].
  case_bool_decide as Hx; simpl; [done|].
  apply not_elem_of_cons. split; [congruence|done].
Qed.

(** A single pipeline with at most one marker flattens to itself without the
    marker. *)
Lemma flatten_last p :
  spread_count p ≤ 1 → flatten [p] = (Ok (without_spread p), []).
Proof.
  intros Hc. cbn [flatten].
  destruct (indexOf spread p) as [i|] eqn:Hi.
  - destruct (indexOf_Some _ _ _ Hi) as [Hp Hbefore].
    assert (Hafter : spread ∉ drop (S i) p).
    { intros Hin. pose proof (spread_count_elem _ Hin) as H1.
      rewrite Hp in Hc.
      change (spread :: drop (S i) p) with ([spread] ++ drop (S i) p) in Hc.
      rewrite !spread_count_app in Hc.
      assert (Hone : spread_count [spread] = 1) by (by vm_compute).
      rewrite Hone in Hc. lia. }
    unfold slice_to, slice_from. replace (i + 1) with (S i) by lia.
    assert (Hno : includes spread (take i p ++ [] ++ drop (S i) p) = false).
    { apply includes_false. rewrite !elem_of_app.
      intros [?|[Hnil|?]]; [done| |done]. by apply elem_of_nil in Hnil. }
    rewrite Hno.
    assert (Hw : without_spread p = take i p ++ drop (S i) p).
    { transitivity (without_spread (take i p ++ [spread] ++ drop (S i) p)).
      { f_equal. exact Hp. }
      rewrite !without_spread_app.
      rewrite (without_spread_clean (take i p)) by done.
      by rewrite (without_spread_clean (drop (S i) p)) by done. }
    by rewrite Hw.
  - apply indexOf_None in Hi as Hn. apply includes_false in Hn as Hinc.
    rewrite Hinc. by rewrite without_spread_clean.
Qed.

(** A pipeline with one marker followed by at most one pipeline with at most
    one marker. *)
Lemma flatten_splice_flattened before after (second : option Pipeline) :
  spread ∉ before → spread ∉ after → spread_count (default [] second) ≤ 1 →
  (flatten ((before ++ spread :: after) :: option_list second)).1
  = Ok (before ++ without_spread (default [] second) ++ after).
Proof.
  intros Hb Ha Hs. cbn [flatten]. rewrite indexOf_app by done.
  assert (Hinner : flatten (option_list second)
                   = (Ok (without_spread (default [] second)), [])).
  { destruct second as [p2|]; simpl; [by apply flatten_last|done]. }
  rewrite Hinner, slice_to_before, slice_from_after.
  assert (Hno : includes spread
                  (before ++ without_spread (default [] second) ++ after) = false).
  { apply includes_false. rewrite !elem_of_app.
    pose proof (without_spread_no_spread (default [] second)). tauto. }
  by rewrite Hno.
Qed.

Lemma spliced_one_marker before after second :
  spread ∉ before → spread ∉ after →
  spliced (before ++ spread :: after) second = before ++ second ++ after.
Proof.
  intros Hb Ha. unfold spliced. rewrite indexOf_app by done.
  rewrite take_app_length.
  pose proof (slice_from_after before after spread) as H.
  unfold slice_from in H.
  replace (length before + 1) with (S (length before)) in H by lia.
  f_equal; [by apply without_spread_clean|]. f_equal.
  transitivity (without_spread after); [f_equal; exact H|].
  by apply without_spread_clean.
Qed.

(** C1, as stated, fails, in three ways. Over {"*": [.., "...", ..], "1": [..]}
    both patterns match the path "1" and the first entry has the marker, but
    the loop visits the array-index key "1" first and its pipeline, which has
    no marker, is the result. A marker in the second pipeline is not spliced
    in with it but replaced by nothing. And a second pipeline with two markers
    makes the composition fail. *)
Lemma matchGlobMapPipelines_splice_fails :
  (isGlobMatch (Demo.host "2.3.1") "1" "*" = true
   ∧ isGlobMatch (Demo.host "2.3.1") "1" "1" = true
   ∧ spliced ["parcel-transformer-a"; "..."; "parcel-transformer-b"]
       ["parcel-transformer-c"]
     = ["parcel-transformer-a"; "parcel-transformer-c"; "parcel-transformer-b"]
   ∧ matchGlobMapPipelines (Demo.host "2.3.1") "1"
       [("*", ["parcel-transformer-a"; "..."; "parcel-transformer-b"]);
        ("1", ["parcel-transformer-c"])]
     = Ok ["parcel-transformer-c"])
  ∧ (isGlobMatch (Demo.host "2.3.1") "x.module.css" "*.module.css" = true
     ∧ isGlobMatch (Demo.host "2.3.1") "x.module.css" "*.css" = true
     ∧ spliced ["parcel-transformer-a"; "..."; "parcel-transformer-b"]
         ["parcel-transformer-c"; "..."; "parcel-transformer-d"]
       = ["parcel-transformer-a"; "parcel-transformer-c"; "...";
          "parcel-transformer-d"; "parcel-transformer-b"]
     ∧ matchGlobMapPipelines (Demo.host "2.3.1") "x.module.css"
         [("*.module.css", ["parcel-transformer-a"; "..."; "parcel-transformer-b"]);
          ("*.css", ["parcel-transformer-c"; "..."; "parcel-transformer-d"])]
       = Ok ["parcel-transformer-a"; "parcel-transformer-c";
             "parcel-transformer-d"; "parcel-transformer-b"])
  ∧ matchGlobMapPipelines (Demo.host "2.3.1") "x.module.css"
      [("*.module.css", ["parcel-transformer-a"; "..."; "parcel-transformer-b"]);
       ("*.css", ["..."; "parcel-transformer-c"; "..."])]
    = Err spread_error.
Proof. by vm_compute. Qed.

(** C1, amended. The entries are taken in the order in which the object
    enumerates them (declaration order unless a pattern is an array index).
    When the first matching entry's pipeline has exactly one spread marker
    and the only other matching entry's pipeline has at most one, the result
    is what stood before the marker, then the second pipeline without its own
    marker, then what stood after the marker; for a second pipeline without
    marker this is the first pipeline with the second one spliced in at the
    marker. When no second entry matches ([second = None]) the marker is
    replaced by nothing. *)
Theorem matchGlobMapPipelines_splice (host : Host) (filePath : FilePath)
    (globMap : Obj.t Pipeline) (first : Pipeline) (second : option Pipeline)
    (before after : Pipeline) :
  Obj.wf globMap →
  matching host filePath globMap = first :: option_list second →
  first = before ++ spread :: after →
  spread ∉ before →
  spread ∉ after →
  spread_count (default [] second) ≤ 1 →
  matchGlobMapPipelines host filePath globMap
  = Ok (before ++ without_spread (default [] second) ++ after)
  ∧ (spread ∉ default [] second →
     matchGlobMapPipelines host filePath globMap
     = Ok (spliced first (default [] second))).
Proof.
  intros Hwf Hm -> Hb Ha Hs.
  assert (Heq : matchGlobMapPipelines host filePath globMap
                = Ok (before ++ without_spread (default [] second) ++ after)).
  { unfold matchGlobMapPipelines. rewrite collect_matching, Hm by done.
    by apply flatten_splice_flattened. }
  split; [done|]. intros Hclean.
  by rewrite Heq, spliced_one_marker, without_spread_clean.
Qed.

(** "x.module.css" matches "*.module.css" and "*.css": the css transformer
    lands between the two transformers around the marker. *)
Lemma matchGlobMapPipelines_splice_css :
  Obj.wf Demo.css_transforms
  ∧ matching (Demo.host "2.3.1") "x.module.css" Demo.css_transforms
    = ["parcel-transformer-modules"; "..."; "parcel-transformer-minify"]
      :: option_list (Some ["parcel-transformer-css"])
  ∧ matchGlobMapPipelines (Demo.host "2.3.1") "x.module.css" Demo.css_transforms
    = Ok (["parcel-transformer-modules"]
          ++ without_spread (default [] (Some ["parcel-transformer-css"]))
          ++ ["parcel-transformer-minify"]).
Proof.
  pose (host := Demo.host "2.3.1").
  pose (first := ["parcel-transformer-modules"; "..."; "parcel-transformer-minify"]).
  pose (second := Some ["parcel-transformer-css"]).
  assert (Hwf : Obj.wf Demo.css_transforms) by by_computing.
  assert (Hm : matching host "x.module.css" Demo.css_transforms
               = first :: option_list second) by by_computing.
  split; [exact Hwf|]. split; [exact Hm|].
  apply (matchGlobMapPipelines_splice host "x.module.css" Demo.css_transforms
           first second ["parcel-transformer-modules"] ["parcel-transformer-minify"]
           Hwf Hm eq_refl); by_computing.
Defined.

(** With a single match the marker leaves no trace. *)
Example matchGlobMapPipelines_lonely_spread :
  matchGlobMapPipelines (Demo.host "2.3.1") "x.module.css"
    [("*.module.css", ["parcel-transformer-modules"; "..."; "parcel-transformer-minify"]);
     ("*.js", ["parcel-transformer-js"])]
  = Ok ["parcel-transformer-modules"; "parcel-transformer-minify"].
Proof. by vm_compute. Qed.

(** A marker in the second pipeline finds the queue exhausted and is
    replaced by nothing as well. *)
Example matchGlobMapPipelines_last_spread :
  matchGlobMapPipelines (Demo.host "2.3.1") "x.module.css"
    [("*.module.css", ["parcel-transformer-modules"; "..."]);
     ("*.css", ["parcel-transformer-css"; "..."])]
  = Ok ["parcel-transformer-modules"; "parcel-transformer-css"].
Proof. by vm_compute. Qed.

(** C3. If the recursion reaches a pipeline with two or more spread markers
    (every pipeline before it in the queue has a marker, so [flatten]
    descends to it), composition fails with the spread error: after the
    flattened rest of the queue has replaced the first marker, a marker is
    still there. *)
Theorem matchGlobMapPipelines_two_spreads (host : Host) (filePath : FilePath)
    (globMap : Obj.t Pipeline) (reached : list Pipeline) (culprit : Pipeline)
    (rest : list Pipeline) :
  collect_matches host filePath globMap (Obj.for_in globMap)
  = reached ++ culprit :: rest →
  Forall (λ p, spread ∈ p) reached →
  2 ≤ spread_count culprit →
  matchGlobMapPipelines host filePath globMap
  = Err (Error "Only one spread parameter can be included in a config pipeline").
Proof.
  intros Hq Hreached Hc. unfold matchGlobMapPipelines. rewrite Hq.
  apply flatten_two_spreads; [|done].
  eapply Forall_impl; [exact Hreached|]. intros p. apply spread_count_elem.
Qed.

(** The second matching entry of [twice_spread_transforms] has two markers
    and the first one has a marker. *)
Lemma matchGlobMapPipelines_two_spreads_css :
  collect_matches (Demo.host "2.3.1") "x.module.css" Demo.twice_spread_transforms
    (Obj.for_in Demo.twice_spread_transforms)
  = [["..."; "parcel-transformer-modules"]]
    ++ ["..."; "parcel-transformer-css"; "..."] :: [["parcel-transformer-raw"]]
  ∧ Forall (λ p, spread ∈ p) [["..."; "parcel-transformer-modules"]]
  ∧ 2 ≤ spread_count ["..."; "parcel-transformer-css"; "..."]
  ∧ matchGlobMapPipelines (Demo.host "2.3.1") "x.module.css"
      Demo.twice_spread_transforms
    = Err (Error "Only one spread parameter can be included in a config pipeline").
Proof.
  pose (host := Demo.host "2.3.1").
  pose (reached := [["..."; "parcel-transformer-modules"]]).
  pose (culprit := ["..."; "parcel-transformer-css"; "..."]).
  pose (rest := [["parcel-transformer-raw"]]).
  assert (Hq : collect_matches host "x.module.css" Demo.twice_spread_transforms
                 (Obj.for_in Demo.twice_spread_transforms)
               = reached ++ culprit :: rest) by by_computing.
  assert (Hr : Forall (λ p, spread ∈ p) reached) by by_computing.
  assert (Hc : 2 ≤ spread_count culprit) by by_computing.
  split; [exact Hq|]. split; [exact Hr|]. split; [exact Hc|].
  exact (matchGlobMapPipelines_two_spreads host "x.module.css"
           Demo.twice_spread_transforms reached culprit rest Hq Hr Hc).
Defined.

(** A pipeline with two markers that the recursion does not reach is not
    looked at. *)
Example matchGlobMapPipelines_unreached :
  matchGlobMapPipelines (Demo.host "2.3.1") "x.css"
    [("*.css", ["parcel-transformer-css"]); ("*", ["..."; "..."])]
  = Ok ["parcel-transformer-css"].
Proof. by vm_compute. Qed.

(** ** The loader *)

Section LoaderFacts.
Variable host : Host.

(** The continuation of [loadPlugin] reads the world only through
    [configPath]; it appends its events and stores the plugin it returns. *)
Lemma resume_uniform pluginName w :
  loadPlugin_resume host pluginName w
  = ((resume_outcome host pluginName (configPath (this w))).1,
     commit pluginName (resume_outcome host pluginName (configPath (this w))).1
       (resume_outcome host pluginName (configPath (this w))).2 w).
Proof.
  unfold resume_outcome, loadPlugin_resume, bind, get_this, lift, blank. simpl.
  destruct (localResolve host pluginName (configPath (this w)))
    as [[resolved pkg]|e]; simpl.
  - unfold check_engines, bind, tell, throw, ret, cache_put.
    destruct (parcelVersionRange pkg) as [range|]; simpl.
    + destruct (satisfies host (PARCEL_VERSION host) range); simpl.
      * destruct (require_plugin host resolved); simpl;
          unfold commit, emit, cache_set; simpl; by rewrite <- ?app_assoc.
      * unfold commit, emit; simpl. by destruct w.
    + destruct (require_plugin host resolved); simpl;
        unfold commit, emit, cache_set; simpl; by rewrite <- ?app_assoc.
  - unfold commit. simpl. rewrite app_nil_r. by destruct w.
Qed.

(** Outcome and events of a continuation, branch by branch. *)
Lemma resume_outcome_cases pluginName base :
  resume_outcome host pluginName base
  = match localResolve host pluginName base with
    | Err e => (Err e, [])
    | Ok (resolved, pkg) =>
        match parcelVersionRange pkg with
        | None =>
            (require_plugin host resolved,
             [EWarn (missing_engines_warning pluginName); ERequire resolved])
        | Some range =>
            if satisfies host (PARCEL_VERSION host) range
            then (require_plugin host resolved,
                  [ESatisfies (PARCEL_VERSION host) range; ERequire resolved])
            else (Err (Error (incompatible_message host pluginName range)),
                  [ESatisfies (PARCEL_VERSION host) range])
        end
    end.
Proof.
  unfold resume_outcome, loadPlugin_resume, bind, get_this, lift, blank. simpl.
  destruct (localResolve host pluginName base) as [[resolved pkg]|e]; simpl; [|done].
  unfold check_engines, bind, tell, throw, ret, cache_put.
  destruct (parcelVersionRange pkg) as [range|]; simpl.
  - destruct (satisfies host (PARCEL_VERSION host) range); simpl; [|done].
    by destruct (require_plugin host resolved).
  - by destruct (require_plugin host resolved).
Qed.

Lemma cache_hit_absent (c : Config) pluginName :
  pluginCache c !! pluginName = None → cache_hit c pluginName = None.
Proof. unfold cache_hit. by intros ->. Qed.

Lemma cache_hit_Some (c : Config) pluginName plugin :
  cache_hit c pluginName = Some plugin
  ↔ pluginCache c !! pluginName = Some plugin ∧ truthy plugin = true.
Proof.
  unfold cache_hit. destruct (pluginCache c !! pluginName) as [v|].
  - destruct (truthy v) eqn:Hv; split.
    + by intros [= <-].
    + by intros [[= <-] _].
    + done.
    + intros [[= <-] Ht]. congruence.
  - split; [done|]. by intros [? _].
Qed.

Lemma loadPlugin_hit pluginName plugin w :
  cache_hit (this w) pluginName = Some plugin →
  loadPlugin host pluginName w = (Ok plugin, w).
Proof. unfold loadPlugin, loadPlugin_start. by intros ->. Qed.

Lemma loadPlugin_miss pluginName w :
  cache_hit (this w) pluginName = None →
  loadPlugin host pluginName w
  = loadPlugin_resume host pluginName
      (emit (EResolve pluginName (configPath (this w))) w).
Proof. unfold loadPlugin, loadPlugin_start. by intros ->. Qed.

(** Outcome, events and final world of a call that misses the cache. *)
Lemma loadPlugin_miss_outcome pluginName w :
  cache_hit (this w) pluginName = None →
  loadPlugin host pluginName w
  = ((resume_outcome host pluginName (configPath (this w))).1,
     commit pluginName (resume_outcome host pluginName (configPath (this w))).1
       (EResolve pluginName (configPath (this w))
        :: (resume_outcome host pluginName (configPath (this w))).2) w).
Proof.
  intros Hmiss. rewrite loadPlugin_miss, resume_uniform by done. simpl.
  f_equal. unfold commit, emit, cache_set. simpl.
  destruct (resume_outcome host pluginName (configPath (this w))).1;
    simpl; by rewrite <- app_assoc.
Qed.

Lemma resolutions_app pluginName (t1 t2 : list event) :
  resolutions pluginName (t1 ++ t2)
  = resolutions pluginName t1 + resolutions pluginName t2.
Proof.
  induction t1 as [|e t1 IH]; simpl; [done|].
  destruct e; rewrite IH; lia.
Qed.


(** The continuation asks for no resolution. *)
Lemma resume_no_resolve pluginName name base :
  resolutions name (resume_outcome host pluginName base).2 = 0.
Proof.
  unfold resume_outcome, loadPlugin_resume, bind, get_this, lift, blank. simpl.
  destruct (localResolve host pluginName base) as [[resolved pkg]|e]; simpl; [|done].
  unfold check_engines, bind, tell, throw, ret, cache_put.
  destruct (parcelVersionRange pkg) as [range|]; simpl.
  - destruct (satisfies host (PARCEL_VERSION host) range); simpl; [|done].
    by destruct (require_plugin host resolved).
  - by destruct (require_plugin host resolved).
Qed.

(** A call changes nothing of the instance but the cache, where it can only
    add the entry of its own plugin. *)
Lemma loadPlugin_this pluginName w :
  this (loadPlugin host pluginName w).2 = this w
  ∨ ∃ plugin, (loadPlugin host pluginName w).1 = Ok plugin
      ∧ cache_hit (this w) pluginName = None
      ∧ this (loadPlugin host pluginName w).2 = this (cache_set pluginName plugin w).
Proof.
  destruct (cache_hit (this w) pluginName) as [p|] eqn:Hhit.
  - left. by rewrite (loadPlugin_hit _ _ _ Hhit).
  - rewrite (loadPlugin_miss_outcome _ _ Hhit). simpl.
    destruct (resume_outcome host pluginName (configPath (this w))).1 as [p|e];
      [right; by exists p|by left].
Qed.

Lemma loadPlugin_configPath pluginName w :
  configPath (this (loadPlugin host pluginName w).2) = configPath (this w).
Proof.
  destruct (loadPlugin_this pluginName w) as [->|(p & _ & _ & ->)]; done.
Qed.

(** Entries that hit are never changed or removed, and no key is removed. *)
Lemma loadPlugin_cache_grows pluginName w :
  (∀ k v, cache_hit (this w) k = Some v →
          cache_hit (this (loadPlugin host pluginName w).2) k = Some v)
  ∧ (∀ k, is_Some (pluginCache (this w) !! k) →
          is_Some (pluginCache (this (loadPlugin host pluginName w).2) !! k)).
Proof.
  destruct (loadPlugin_this pluginName w) as [->|(p & _ & Hmiss & ->)]; [done|].
  simpl. split.
  - intros k v Hk. unfold cache_hit in *. simpl.
    destruct (decide (pluginName = k)) as [->|Hne].
    + by rewrite Hmiss in Hk.
    + by rewrite lookup_insert_ne.
  - intros k Hk. destruct (decide (pluginName = k)) as [->|Hne].
    + rewrite lookup_insert_eq. by eexists.
    + by rewrite lookup_insert_ne.
Qed.

End LoaderFacts.

Lemma append_assoc (a b c : string) : (a +:+ b) +:+ c = a +:+ (b +:+ c).
Proof.
  induction a as [|x a IH]; [done|].
  change (String x ((a +:+ b) +:+ c) = String x (a +:+ (b +:+ c))).
  by rewrite IH.
Qed.

(** C2. A plugin that is not cached and whose package.json declares a range
    under engines.parcel loads exactly when the host version satisfies the
    range: then the call returns what the module yields, otherwise it fails
    with an error whose message names the plugin, the range and the host
    version. *)
Theorem loadPlugin_version_gate (host : Host) (pluginName : PackageName)
    (w : world) (resolved : FilePath) (pkg : package_json)
    (declared : gmap string string) (range : string) :
  pluginCache (this w) !! pluginName = None →
  localResolve host pluginName (configPath (this w)) = Ok (resolved, pkg) →
  engines pkg = Some declared →
  declared !! "parcel" = Some range →
  range ≠ "" →
  (loadPlugin host pluginName w).1
  = (if satisfies host (PARCEL_VERSION host) range
     then require_plugin host resolved
     else Err (Error (incompatible_message host pluginName range)))
  ∧ names (incompatible_message host pluginName range) pluginName
  ∧ names (incompatible_message host pluginName range) range
  ∧ names (incompatible_message host pluginName range) (PARCEL_VERSION host).
Proof.
  intros Hcache Hres Heng Hdecl Hrange. split.
  - rewrite loadPlugin_miss by by apply cache_hit_absent.
    unfold loadPlugin_resume, bind, get_this, lift. simpl. rewrite Hres. simpl.
    unfold check_engines, parcelVersionRange. rewrite Heng. simpl. rewrite Hdecl.
    unfold truthy_string. rewrite bool_decide_eq_false_2 by done. simpl.
    unfold bind, tell, throw, ret, cache_put. simpl.
    destruct (satisfies host (PARCEL_VERSION host) range); simpl; [|done].
    by destruct (require_plugin host resolved).
  - unfold names, incompatible_message. repeat split.
    + by eexists ("The plugin " +:+ dquote), _.
    + eexists ("The plugin " +:+ dquote +:+ pluginName +:+ dquote
               +:+ " is not compatible with the current version of Parcel. Requires "
               +:+ dquote), _.
      rewrite !append_assoc. reflexivity.
    + eexists ("The plugin " +:+ dquote +:+ pluginName +:+ dquote
               +:+ " is not compatible with the current version of Parcel. Requires "
               +:+ dquote +:+ range +:+ dquote +:+ " but the current version is "
               +:+ dquote), _.
      rewrite !append_assoc. reflexivity.
Qed.

(** A transformer that declares engines: {parcel: "^2.0.0"} is refused by a
    host of version 1.9.0 and loaded by a host of version 2.3.1. *)
Lemma loadPlugin_version_gate_caret :
  (pluginCache (this (Demo.boot empty_config)) !! "parcel-transformer-js" = None
   ∧ Demo.resolve "parcel-transformer-js" "/app/.parcelrc"
     = Ok ("/app/node_modules/parcel-transformer-js/index.js",
           Demo.engines_parcel "^2.0.0")
   ∧ engines (Demo.engines_parcel "^2.0.0") = Some {[ "parcel" := "^2.0.0" ]}
   ∧ ({[ "parcel" := "^2.0.0" ]} : gmap string string) !! "parcel" = Some "^2.0.0"
   ∧ "^2.0.0" ≠ "")
  ∧ (loadPlugin (Demo.host "1.9.0") "parcel-transformer-js"
       (Demo.boot empty_config)).1
    = Err (Error (incompatible_message (Demo.host "1.9.0")
                    "parcel-transformer-js" "^2.0.0"))
  ∧ (loadPlugin (Demo.host "2.3.1") "parcel-transformer-js"
       (Demo.boot empty_config)).1
    = Ok (VObject 3).
Proof.
  assert (H1 : pluginCache (this (Demo.boot empty_config))
               !! "parcel-transformer-js" = None) by by_computing.
  assert (H2 : Demo.resolve "parcel-transformer-js" "/app/.parcelrc"
               = Ok ("/app/node_modules/parcel-transformer-js/index.js",
                     Demo.engines_parcel "^2.0.0")) by by_computing.
  assert (H3 : engines (Demo.engines_parcel "^2.0.0")
               = Some {[ "parcel" := "^2.0.0" ]}) by reflexivity.
  assert (H4 : ({[ "parcel" := "^2.0.0" ]} : gmap string string) !! "parcel"
               = Some "^2.0.0") by by_computing.
  assert (H5 : "^2.0.0" ≠ "") by discriminate.
  split; [by repeat split|]. split.
  - exact (proj1 (loadPlugin_version_gate (Demo.host "1.9.0")
             "parcel-transformer-js" (Demo.boot empty_config) _ _ _ _
             H1 H2 H3 H4 H5)).
  - exact (proj1 (loadPlugin_version_gate (Demo.host "2.3.1")
             "parcel-transformer-js" (Demo.boot empty_config) _ _ _ _
             H1 H2 H3 H4 H5)).
Defined.

(** C8, as stated, fails: the module of parcel-plugin-bare has no [CONFIG]
    export, so its first load succeeds with [undefined]; the second call does
    not hit the cache and asks for the resolution and the version check once
    more. *)
Lemma loadPlugin_undefined_loaded_twice :
  (loadPlugin (Demo.host "2.3.1") "parcel-plugin-bare" (Demo.boot empty_config)).1
  = Ok VUndefined
  ∧ resolutions "parcel-plugin-bare"
      (trace (again (Demo.host "2.3.1") "parcel-plugin-bare" 1
                (Demo.boot empty_config))) = 1
  ∧ (loadPlugin (Demo.host "2.3.1") "parcel-plugin-bare"
       (again (Demo.host "2.3.1") "parcel-plugin-bare" 1
          (Demo.boot empty_config))).1 = Ok VUndefined
  ∧ resolutions "parcel-plugin-bare"
      (trace (again (Demo.host "2.3.1") "parcel-plugin-bare" 2
                (Demo.boot empty_config))) = 2
  ∧ version_checks
      (trace (again (Demo.host "2.3.1") "parcel-plugin-bare" 2
                (Demo.boot empty_config))) = 2.
Proof. by vm_compute. Qed.

(** C8, amended. After a load that returned a truthy plugin, the next call
    for the same identifier returns that same value and leaves the world as
    it is: no resolution, no version check, no change of the cache. And no
    call ever removes a key or changes an entry that hits. *)
Theorem loadPlugin_second_call_cached (host : Host) (pluginName : PackageName)
    (w w1 : world) (plugin : value) :
  loadPlugin host pluginName w = (Ok plugin, w1) →
  truthy plugin = true →
  loadPlugin host pluginName w1 = (Ok plugin, w1)
  ∧ (∀ name k v, cache_hit (this w1) k = Some v →
       cache_hit (this (loadPlugin host name w1).2) k = Some v)
  ∧ (∀ name k, is_Some (pluginCache (this w1) !! k) →
       is_Some (pluginCache (this (loadPlugin host name w1).2) !! k)).
Proof.
  intros Hload Htruthy. split; [|split].
  - apply loadPlugin_hit.
    destruct (cache_hit (this w) pluginName) as [p|] eqn:Hhit.
    + rewrite (loadPlugin_hit _ _ _ _ Hhit) in Hload. by inversion Hload; subst.
    + rewrite (loadPlugin_miss_outcome _ _ _ Hhit) in Hload.
      injection Hload as Hr Hw. rewrite <- Hw, Hr. simpl.
      apply cache_hit_Some. simpl. by rewrite lookup_insert_eq.
  - intros name. apply loadPlugin_cache_grows.
  - intros name. apply loadPlugin_cache_grows.
Qed.

(** The transformer of the demo installation is loaded once. *)
Lemma loadPlugin_second_call_cached_js :
  (loadPlugin (Demo.host "2.3.1") "parcel-transformer-js" (Demo.boot empty_config)
   = (Ok (VObject 3),
      again (Demo.host "2.3.1") "parcel-transformer-js" 1 (Demo.boot empty_config))
   ∧ truthy (VObject 3) = true)
  ∧ loadPlugin (Demo.host "2.3.1") "parcel-transformer-js"
      (again (Demo.host "2.3.1") "parcel-transformer-js" 1 (Demo.boot empty_config))
    = (Ok (VObject 3),
       again (Demo.host "2.3.1") "parcel-transformer-js" 1 (Demo.boot empty_config)).
Proof.
  assert (H1 : loadPlugin (Demo.host "2.3.1") "parcel-transformer-js"
                 (Demo.boot empty_config)
               = (Ok (VObject 3),
                  again (Demo.host "2.3.1") "parcel-transformer-js" 1
                    (Demo.boot empty_config))) by by_computing.
  assert (H2 : truthy (VObject 3) = true) by reflexivity.
  split; [by split|].
  exact (proj1 (loadPlugin_second_call_cached (Demo.host "2.3.1")
                  "parcel-transformer-js" _ _ _ H1 H2)).
Defined.

(** C9. A call that fails leaves the instance, and so the whole cache, as it
    was: the identifier is not stored and no entry changes. The next call for
    the identifier misses the cache and asks for the resolution again. *)
Theorem loadPlugin_failure_keeps_cache (host : Host) (pluginName : PackageName)
    (w w1 : world) (e : exn) :
  loadPlugin host pluginName w = (Err e, w1) →
  this w1 = this w
  ∧ cache_hit (this w1) pluginName = None
  ∧ resolutions pluginName (trace (loadPlugin host pluginName w1).2)
    = S (resolutions pluginName (trace w1)).
Proof.
  intros Hload.
  destruct (cache_hit (this w) pluginName) as [p|] eqn:Hhit.
  { by rewrite (loadPlugin_hit _ _ _ _ Hhit) in Hload. }
  rewrite (loadPlugin_miss_outcome _ _ _ Hhit) in Hload.
  injection Hload as Hr Hw.
  assert (Hthis : this w1 = this w) by (by rewrite <- Hw, Hr).
  assert (Hmiss : cache_hit (this w1) pluginName = None) by (by rewrite Hthis).
  split; [done|]. split; [done|].
  rewrite (loadPlugin_miss_outcome _ _ _ Hmiss). simpl.
  rewrite resolutions_app. simpl.
  rewrite bool_decide_eq_true_2 by done.
  rewrite resume_no_resolve. lia.
Qed.

(** A host of version 1.9.0 refuses the transformer and stores nothing. *)
Lemma loadPlugin_failure_keeps_cache_js :
  loadPlugin (Demo.host "1.9.0") "parcel-transformer-js" (Demo.boot empty_config)
  = (Err (Error (incompatible_message (Demo.host "1.9.0")
                   "parcel-transformer-js" "^2.0.0")),
     again (Demo.host "1.9.0") "parcel-transformer-js" 1 (Demo.boot empty_config))
  ∧ this (again (Demo.host "1.9.0") "parcel-transformer-js" 1
            (Demo.boot empty_config))
    = this (Demo.boot empty_config)
  ∧ cache_hit
      (this (again (Demo.host "1.9.0") "parcel-transformer-js" 1
               (Demo.boot empty_config))) "parcel-transformer-js" = None
  ∧ resolutions "parcel-transformer-js"
      (trace (loadPlugin (Demo.host "1.9.0") "parcel-transformer-js"
                (again (Demo.host "1.9.0") "parcel-transformer-js" 1
                   (Demo.boot empty_config))).2)
    = S (resolutions "parcel-transformer-js"
           (trace (again (Demo.host "1.9.0") "parcel-transformer-js" 1
                     (Demo.boot empty_config)))).
Proof.
  assert (H1 : loadPlugin (Demo.host "1.9.0") "parcel-transformer-js"
                 (Demo.boot empty_config)
               = (Err (Error (incompatible_message (Demo.host "1.9.0")
                                "parcel-transformer-js" "^2.0.0")),
                  again (Demo.host "1.9.0") "parcel-transformer-js" 1
                    (Demo.boot empty_config))) by by_computing.
  split; [exact H1|].
  exact (loadPlugin_failure_keeps_cache (Demo.host "1.9.0")
           "parcel-transformer-js" _ _ _ H1).
Defined.

(** A package that is not installed: the resolution fails, nothing is
    stored, and the next call asks again. *)
Example loadPlugin_missing_package :
  (loadPlugin (Demo.host "2.3.1") "parcel-namer-none" (Demo.boot empty_config)).1
  = Err (Error "Cannot find module 'parcel-namer-none'")
  ∧ this (again (Demo.host "2.3.1") "parcel-namer-none" 1 (Demo.boot empty_config))
    = this (Demo.boot empty_config)
  ∧ trace (again (Demo.host "2.3.1") "parcel-namer-none" 2 (Demo.boot empty_config))
    = [EResolve "parcel-namer-none" "/app/.parcelrc";
       EResolve "parcel-namer-none" "/app/.parcelrc"].
Proof. by vm_compute. Qed.

(** A falsy plugin is stored but the next call misses all the same. *)
Lemma falsy_outcome_step (host : Host) pluginName plugin w :
  cache_hit (this w) pluginName = None →
  (resume_outcome host pluginName (configPath (this w))).1 = Ok plugin →
  truthy plugin = false →
  (loadPlugin host pluginName w).1 = Ok plugin
  ∧ trace (loadPlugin host pluginName w).2
    = trace w ++ EResolve pluginName (configPath (this w))
        :: (resume_outcome host pluginName (configPath (this w))).2
  ∧ configPath (this (loadPlugin host pluginName w).2) = configPath (this w)
  ∧ pluginCache (this (loadPlugin host pluginName w).2) !! pluginName = Some plugin
  ∧ cache_hit (this (loadPlugin host pluginName w).2) pluginName = None.
Proof.
  intros Hmiss Hout Hfalsy.
  rewrite (loadPlugin_miss_outcome _ _ _ Hmiss), Hout. simpl.
  repeat split; try done.
  - by rewrite lookup_insert_eq.
  - unfold cache_hit. simpl. by rewrite lookup_insert_eq, Hfalsy.
Qed.

(** C10. When the capability object that a load extracts is falsy, the value
    is stored under the identifier, but the cache test does not accept it:
    every later call for the identifier returns the value after doing the
    whole load again. It asks for the resolution, passes the version gate
    (the version check against the declared range, or the warning when the
    package declares none) and requires the module: exactly these three
    events are appended by each call. *)
Theorem loadPlugin_falsy_never_hits (host : Host) (pluginName : PackageName)
    (w w1 : world) (plugin : value) :
  loadPlugin host pluginName w = (Ok plugin, w1) →
  truthy plugin = false →
  ∃ resolved pkg,
    localResolve host pluginName (configPath (this w)) = Ok (resolved, pkg)
    ∧ match parcelVersionRange pkg with
      | Some range => satisfies host (PARCEL_VERSION host) range = true
      | None => True
      end
    ∧ pluginCache (this w1) !! pluginName = Some plugin
    ∧ cache_hit (this w1) pluginName = None
    ∧ ∀ n,
        (loadPlugin host pluginName (again host pluginName n w1)).1 = Ok plugin
        ∧ trace (loadPlugin host pluginName (again host pluginName n w1)).2
          = trace (again host pluginName n w1)
            ++ [EResolve pluginName (configPath (this w));
                match parcelVersionRange pkg with
                | Some range => ESatisfies (PARCEL_VERSION host) range
                | None => EWarn (missing_engines_warning pluginName)
                end;
                ERequire resolved].
Proof.
  intros Hload Hfalsy.
  destruct (cache_hit (this w) pluginName) as [p|] eqn:Hhit.
  { rewrite (loadPlugin_hit _ _ _ _ Hhit) in Hload. injection Hload as -> _.
    apply cache_hit_Some in Hhit as [_ Ht]. congruence. }
  assert (Hout : (resume_outcome host pluginName (configPath (this w))).1 = Ok plugin).
  { rewrite (loadPlugin_miss_outcome _ _ _ Hhit) in Hload. by injection Hload. }
  destruct (falsy_outcome_step host pluginName plugin w Hhit Hout Hfalsy)
    as (_ & Htrace & Hpath & Hstored & Hmiss).
  rewrite Hload in Htrace, Hpath, Hstored, Hmiss. simpl in *.
  pose proof (resume_outcome_cases host pluginName (configPath (this w))) as Hcases.
  destruct (localResolve host pluginName (configPath (this w)))
    as [[resolved pkg]|e] eqn:Hres; [|by rewrite Hcases in Hout].
  exists resolved, pkg. split; [done|].
  assert (Hgate : match parcelVersionRange pkg with
                  | Some range => satisfies host (PARCEL_VERSION host) range = true
                  | None => True
                  end
                  ∧ (resume_outcome host pluginName (configPath (this w))).2
                    = [match parcelVersionRange pkg with
                       | Some range => ESatisfies (PARCEL_VERSION host) range
                       | None => EWarn (missing_engines_warning pluginName)
                       end;
                       ERequire resolved]).
  { rewrite Hcases in Hout |- *.
    destruct (parcelVersionRange pkg) as [range|]; [|done].
    by destruct (satisfies host (PARCEL_VERSION host) range). }
  destruct Hgate as [Hgate Hevents].
  split; [done|]. split; [done|]. split; [done|].
  intros n. rewrite <- Hevents, <- Hpath in *.
  clear Hload Htrace Hstored Hhit Hres Hcases Hgate Hevents.
  revert w1 Hout Hmiss Hpath. induction n as [|n IH]; intros w1 Hout Hmiss Hpath; simpl.
  - by destruct (falsy_outcome_step host pluginName plugin w1 Hmiss Hout Hfalsy)
      as (? & ? & _).
  - destruct (falsy_outcome_step host pluginName plugin w1 Hmiss Hout Hfalsy)
      as (_ & _ & Hpath' & _ & Hmiss').
    rewrite <- Hpath'. apply IH; [by rewrite Hpath'|done|by rewrite Hpath'].
Qed.

(** parcel-plugin-bare yields [undefined]: stored, and loaded again each
    time, with the version check against "^2.0.0". *)
Lemma loadPlugin_falsy_never_hits_bare :
  (loadPlugin (Demo.host "2.3.1") "parcel-plugin-bare" (Demo.boot empty_config)
   = (Ok VUndefined,
      again (Demo.host "2.3.1") "parcel-plugin-bare" 1 (Demo.boot empty_config))
   ∧ truthy VUndefined = false)
  ∧ pluginCache
      (this (again (Demo.host "2.3.1") "parcel-plugin-bare" 1
               (Demo.boot empty_config))) !! "parcel-plugin-bare"
    = Some VUndefined
  ∧ cache_hit
      (this (again (Demo.host "2.3.1") "parcel-plugin-bare" 1
               (Demo.boot empty_config))) "parcel-plugin-bare" = None
  ∧ trace (loadPlugin (Demo.host "2.3.1") "parcel-plugin-bare"
             (again (Demo.host "2.3.1") "parcel-plugin-bare" 1
                (Demo.boot empty_config))).2
    = trace (again (Demo.host "2.3.1") "parcel-plugin-bare" 1
               (Demo.boot empty_config))
      ++ [EResolve "parcel-plugin-bare" "/app/.parcelrc";
          ESatisfies "2.3.1" "^2.0.0";
          ERequire "/app/node_modules/parcel-plugin-bare/index.js"].
Proof.
  assert (H1 : loadPlugin (Demo.host "2.3.1") "parcel-plugin-bare"
                 (Demo.boot empty_config)
               = (Ok VUndefined,
                  again (Demo.host "2.3.1") "parcel-plugin-bare" 1
                    (Demo.boot empty_config))) by by_computing.
  assert (H2 : truthy VUndefined = false) by reflexivity.
  split; [by split|].
  destruct (loadPlugin_falsy_never_hits (Demo.host "2.3.1")
              "parcel-plugin-bare" _ _ _ H1 H2)
    as (resolved & pkg & Hres & _ & Hs & Hm & Hn).
  split; [exact Hs|]. split; [exact Hm|].
  assert (Hpkg : Ok ("/app/node_modules/parcel-plugin-bare/index.js",
                     Demo.engines_parcel "^2.0.0")
                 = Ok (resolved, pkg)) by exact Hres.
  injection Hpkg as <- <-.
  exact (proj2 (Hn 0)).
Defined.

(** The events of each load of parcel-plugin-bare. *)
Example loadPlugin_bare_events :
  trace (again (Demo.host "2.3.1") "parcel-plugin-bare" 2 (Demo.boot empty_config))
  = [EResolve "parcel-plugin-bare" "/app/.parcelrc";
     ESatisfies "2.3.1" "^2.0.0";
     ERequire "/app/node_modules/parcel-plugin-bare/index.js";
     EResolve "parcel-plugin-bare" "/app/.parcelrc";
     ESatisfies "2.3.1" "^2.0.0";
     ERequire "/app/node_modules/parcel-plugin-bare/index.js"].
Proof. by vm_compute. Qed.

(** ** Calls in flight *)

Section InFlight.
Variable host : Host.




End InFlight.






(** ** The accessors *)

Lemma for_in_declared {T} (o : Obj.t T) k : k ∈ Obj.for_in o → k ∈ o.*1.
Proof. unfold Obj.for_in. by rewrite (entries_perm o). Qed.

Section AccessorFacts.
Variable host : Host.

Lemma matchGlobMap_no_match {T} filePath (globMap : Obj.t T) :
  (∀ pattern, pattern ∈ globMap.*1 → isGlobMatch host filePath pattern = false) →
  matchGlobMap host filePath globMap = None.
Proof.
  intros Hno. unfold matchGlobMap.
  assert (H : ∀ k, k ∈ Obj.for_in globMap → isGlobMatch host filePath k = false).
  { intros k Hk. by apply Hno, for_in_declared. }
  induction (Obj.for_in globMap) as [|k l IH]; simpl; [done|].
  rewrite H by (apply elem_of_cons; by left).
  apply IH. intros k' Hk'. apply H. apply elem_of_cons. by right.
Qed.

Lemma matchGlobMapPipelines_no_match filePath (globMap : Obj.t Pipeline) :
  (∀ pattern, pattern ∈ globMap.*1 → isGlobMatch host filePath pattern = false) →
  matchGlobMapPipelines host filePath globMap = Ok [].
Proof.
  intros Hno. unfold matchGlobMapPipelines.
  assert (H : ∀ k, k ∈ Obj.for_in globMap → isGlobMatch host filePath k = false).
  { intros k Hk. by apply Hno, for_in_declared. }
  assert (Hq : collect_matches host filePath globMap (Obj.for_in globMap) = []).
  { induction (Obj.for_in globMap) as [|k l IH]; simpl; [done|].
    rewrite H by (apply elem_of_cons; by left).
    apply IH. intros k' Hk'. apply H. apply elem_of_cons. by right. }
  by rewrite Hq.
Qed.

End AccessorFacts.

(** C6. The mandatory phases fail when they are empty: [getResolvers] without
    resolvers, [getBundler] without a bundler, [getNamers] without namers,
    [getTransformers] and [getPackager] when no pattern matches the path, each
    with a message that names the phase and, for the last two, the path.
    [getRuntimes] for a context without entry and [getOptimizers] for a path
    that no pattern matches return the empty sequence. None of these calls
    touches the world. *)
Theorem empty_phase_policy (host : Host) (w : world) (filePath : FilePath)
    (context : string) :
  (resolvers (this w) = [] →
     getResolvers host w
     = (Err (Error "No resolver plugins specified in .parcelrc config"), w))
  ∧ (bundler (this w) = "" →
     getBundler host w
     = (Err (Error "No bundler specified in .parcelrc config"), w))
  ∧ (namers (this w) = [] →
     getNamers host w
     = (Err (Error "No namer plugins specified in .parcelrc config"), w))
  ∧ ((∀ pattern, pattern ∈ (transforms (this w)).*1 →
        isGlobMatch host filePath pattern = false) →
     getTransformers host filePath w = (Err (no_transformers filePath), w))
  ∧ ((∀ pattern, pattern ∈ (packagers (this w)).*1 →
        isGlobMatch host filePath pattern = false) →
     getPackager host filePath w = (Err (no_packager filePath), w))
  ∧ (Obj.get (runtimes (this w)) context = None →
     getRuntimes host context w = (Ok [], w))
  ∧ ((∀ pattern, pattern ∈ (optimizers (this w)).*1 →
        isGlobMatch host filePath pattern = false) →
     getOptimizers host filePath w = (Ok [], w))
  ∧ (names (message (no_transformers filePath)) "transformers"
     ∧ names (message (no_transformers filePath)) filePath)
  ∧ (names (message (no_packager filePath)) "packager"
     ∧ names (message (no_packager filePath)) filePath).
Proof.
  repeat apply conj.
  - intros H. unfold getResolvers, bind, get_this, throw. simpl. by rewrite H.
  - intros H. unfold getBundler, bind, get_this, throw. simpl. by rewrite H.
  - intros H. unfold getNamers, bind, get_this, throw. simpl. by rewrite H.
  - intros H. unfold getTransformers, bind, get_this, lift, throw. simpl.
    by rewrite matchGlobMapPipelines_no_match.
  - intros H. unfold getPackager, bind, get_this, throw. simpl.
    by rewrite matchGlobMap_no_match.
  - intros H. unfold getRuntimes, bind, get_this, ret. simpl. by rewrite H.
  - intros H. unfold getOptimizers, bind, get_this, lift. simpl.
    by rewrite matchGlobMapPipelines_no_match.
  - by exists "No ", (" found for " +:+ dquote +:+ filePath +:+ dquote +:+ ".").
  - by exists ("No transformers found for " +:+ dquote), (dquote +:+ ".").
  - by exists "No ", (" found for " +:+ dquote +:+ filePath +:+ dquote +:+ ".").
  - by exists ("No packager found for " +:+ dquote), (dquote +:+ ".").
Qed.

(** An instance made from the record {} has every phase empty. *)
Lemma empty_phase_policy_empty_config :
  getResolvers (Demo.host "2.3.1") (Demo.boot empty_config)
  = (Err (Error "No resolver plugins specified in .parcelrc config"),
     Demo.boot empty_config)
  ∧ getBundler (Demo.host "2.3.1") (Demo.boot empty_config)
    = (Err (Error "No bundler specified in .parcelrc config"),
       Demo.boot empty_config)
  ∧ getNamers (Demo.host "2.3.1") (Demo.boot empty_config)
    = (Err (Error "No namer plugins specified in .parcelrc config"),
       Demo.boot empty_config)
  ∧ getTransformers (Demo.host "2.3.1") "src/index.js" (Demo.boot empty_config)
    = (Err (no_transformers "src/index.js"), Demo.boot empty_config)
  ∧ getPackager (Demo.host "2.3.1") "src/index.js" (Demo.boot empty_config)
    = (Err (no_packager "src/index.js"), Demo.boot empty_config)
  ∧ getRuntimes (Demo.host "2.3.1") "browser" (Demo.boot empty_config)
    = (Ok [], Demo.boot empty_config)
  ∧ getOptimizers (Demo.host "2.3.1") "src/index.js" (Demo.boot empty_config)
    = (Ok [], Demo.boot empty_config).
Proof.
  destruct (empty_phase_policy (Demo.host "2.3.1") (Demo.boot empty_config)
              "src/index.js" "browser")
    as (H1 & H2 & H3 & H4 & H5 & H6 & H7 & _).
  assert (Hno : ∀ pattern : string, pattern ∈ (@nil string) →
            isGlobMatch (Demo.host "2.3.1") "src/index.js" pattern = false).
  { intros pattern Hin. by apply elem_of_nil in Hin. }
  repeat apply conj.
  - exact (H1 eq_refl).
  - exact (H2 eq_refl).
  - exact (H3 eq_refl).
  - exact (H4 Hno).
  - exact (H5 Hno).
  - exact (H6 eq_refl).
  - exact (H7 Hno).
Defined.

(** A mapping that has entries, none of which matches the path. *)
Example getPackager_unmatched :
  (getPackager (Demo.host "2.3.1") "src/index.js"
     {| this := constructor
                  {| cfg_resolvers := None; cfg_transforms := None;
                     cfg_bundler := None; cfg_namers := None;
                     cfg_runtimes := None;
                     cfg_packagers := Some Demo.css_packagers;
                     cfg_optimizers := None; cfg_reporters := None |}
                  "/app/.parcelrc";
        trace := [] |}).1
  = Err (no_packager "src/index.js").
Proof. by vm_compute. Qed.

(** * Further properties *)

(** ** Lookup and composition *)

Lemma get_Some_elem {T} (o : Obj.t T) k v : Obj.get o k = Some v → (k, v) ∈ o.
Proof.
  induction o as [|[k' v'] o IH]; simpl; [done|].
  case_bool_decide as Hk.
  - intros [= <-]. subst. apply elem_of_cons. by left.
  - intros H. apply elem_of_cons. right. by apply IH.
Qed.

Lemma get_declared {T} (o : Obj.t T) k : k ∈ o.*1 → is_Some (Obj.get o k).
Proof.
  induction o as [|[k' v'] o IH]; simpl; intros Hin.
  - by apply elem_of_nil in Hin.
  - case_bool_decide as Hk; [by eexists|].
    apply elem_of_cons in Hin as [->|Hin]; [done|by apply IH].
Qed.

Lemma declared_for_in {T} (o : Obj.t T) k : k ∈ o.*1 → k ∈ Obj.for_in o.
Proof. unfold Obj.for_in. by rewrite (entries_perm o). Qed.

Section LookupFacts.
Variable host : Host.

Lemma loop_outcome {T} filePath (o : Obj.t T) (l : list Glob) :
  (∀ k, k ∈ l → k ∈ o.*1) →
  match matchGlobMap_loop host filePath o l with
  | Some v => ∃ pattern, pattern ∈ l ∧ Obj.get o pattern = Some v
                ∧ isGlobMatch host filePath pattern = true
  | None => ∀ pattern, pattern ∈ l → isGlobMatch host filePath pattern = false
  end.
Proof.
  induction l as [|k l IH]; simpl; intros Hdecl.
  - intros pattern Hin. by apply elem_of_nil in Hin.
  - assert (Hl : ∀ k', k' ∈ l → k' ∈ o.*1).
    { intros k' Hk'. apply Hdecl. apply elem_of_cons. by right. }
    specialize (IH Hl).
    destruct (isGlobMatch host filePath k) eqn:Hk.
    + destruct (get_declared o k) as [v Hv].
      { apply Hdecl. apply elem_of_cons. by left. }
      rewrite Hv. exists k. split; [apply elem_of_cons; by left|done].
    + destruct (matchGlobMap_loop host filePath o l) as [v|].
      * destruct IH as (pattern & Hin & Hget & Hm). exists pattern.
        split; [apply elem_of_cons; by right|done].
      * intros pattern Hin. apply elem_of_cons in Hin as [->|Hin]; auto.
Qed.

Lemma loop_collect filePath (o : Obj.t Pipeline) (l : list Glob) p :
  matchGlobMap_loop host filePath o l = Some p →
  ∃ rest, collect_matches host filePath o l = p :: rest.
Proof.
  induction l as [|k l IH]; simpl; [done|].
  destruct (isGlobMatch host filePath k).
  - intros ->. by eexists.
  - apply IH.
Qed.

Lemma collect_elem filePath (o : Obj.t Pipeline) (l : list Glob) q :
  (∀ k, k ∈ l → k ∈ o.*1) →
  q ∈ collect_matches host filePath o l →
  ∃ pattern, (pattern, q) ∈ o ∧ isGlobMatch host filePath pattern = true.
Proof.
  induction l as [|k l IH]; simpl; intros Hdecl Hq.
  - by apply elem_of_nil in Hq.
  - assert (Hl : ∀ k', k' ∈ l → k' ∈ o.*1).
    { intros k' Hk'. apply Hdecl. apply elem_of_cons. by right. }
    destruct (isGlobMatch host filePath k) eqn:Hk; [|by apply IH].
    apply elem_of_cons in Hq as [->|Hq]; [|by apply IH].
    destruct (get_declared o k) as [v Hv].
    { apply Hdecl. apply elem_of_cons. by left. }
    rewrite Hv. simpl. exists k. split; [by apply get_Some_elem|done].
Qed.

End LookupFacts.

(** Every entry of a pipeline that [flatten] returns stands in a pipeline of
    the queue. *)
Lemma flatten_elem matches p x :
  (flatten matches).1 = Ok p → x ∈ p → ∃ q, q ∈ matches ∧ x ∈ q.
Proof.
  revert p. induction matches as [|p0 qs IH]; simpl; intros p.
  - intros [= <-] Hx. by apply elem_of_nil in Hx.
  - destruct (indexOf spread p0) as [i|].
    + destruct (flatten qs) as [[inner|e'] rest]; simpl in *; [|done].
      destruct (includes _ _); simpl; [done|]. intros [= <-] Hx.
      unfold slice_to, slice_from in Hx.
      rewrite !elem_of_app in Hx. destruct Hx as [Hx|[Hx|Hx]].
      * exists p0. split; [apply elem_of_cons; by left|].
        rewrite <- (take_drop i p0). apply elem_of_app. by left.
      * destruct (IH inner eq_refl Hx) as (q & Hq & Hxq).
        exists q. split; [apply elem_of_cons; by right|done].
      * exists p0. split; [apply elem_of_cons; by left|].
        rewrite <- (take_drop (i + 1) p0). apply elem_of_app. by right.
    + destruct (includes spread p0); simpl; [done|]. intros [= <-] Hx.
      exists p0. split; [apply elem_of_cons; by left|done].
Qed.

(** Where [flatten] fails, the recursion has reached a pipeline with two
    markers. *)
Lemma flatten_Err_culprit matches e :
  (flatten matches).1 = Err e →
  ∃ reached culprit rest,
    matches = reached ++ culprit :: rest
    ∧ Forall (λ p, spread ∈ p) reached
    ∧ 2 ≤ spread_count culprit.
Proof.
  revert e. induction matches as [|p qs IH]; simpl; intros e; [done|].
  destruct (indexOf spread p) as [i|] eqn:Hi.
  - destruct (indexOf_Some _ _ _ Hi) as [Hp Hbefore].
    destruct (flatten qs) as [[inner|e'] rest] eqn:Hqs; simpl in *.
    + destruct (includes _ _) eqn:Hin; simpl; [|done]. intros _.
      exists [], p, qs. split; [done|]. split; [constructor|].
      apply includes_true in Hin. unfold slice_to, slice_from in Hin.
      rewrite !elem_of_app in Hin. destruct Hin as [Hin|[Hin|Hin]].
      * done.
      * exfalso. eapply (flatten_Ok qs); [by rewrite Hqs|done].
      * replace (i + 1) with (S i) in Hin by lia.
        rewrite Hp. change (spread :: drop (S i) p) with ([spread] ++ drop (S i) p).
        rewrite !spread_count_app.
        pose proof (spread_count_elem _ Hin).
        assert (Hone : spread_count [spread] = 1) by (by vm_compute).
        rewrite Hone. lia.
    + intros [= <-]. destruct (IH e' eq_refl) as (reached & culprit & rest' & -> & Hr & Hc).
      exists (p :: reached), culprit, rest'. split; [done|]. split; [|done].
      constructor; [|done]. rewrite Hp. rewrite elem_of_app. right.
      apply elem_of_cons. by left.
  - destruct (includes spread p) eqn:Hin; simpl; [|done].
    apply includes_true in Hin. by apply indexOf_None in Hi.
Qed.

(** Layers with one marker each compose around what the rest of the queue
    flattens to. *)
Lemma flatten_nest (layers : list (Pipeline * Pipeline)) tail core :
  Forall (λ layer, (spread ∉ fst layer) ∧ (spread ∉ snd layer)) layers →
  (flatten tail).1 = Ok core →
  (flatten ((with_spread <$> layers) ++ tail)).1 = Ok (nest layers core).
Proof.
  intros Hlayers Htail.
  induction Hlayers as [|[before after] layers [Hb Ha] _ IH]; [done|].
  rewrite fmap_cons. unfold with_spread at 1. cbn [fst snd app flatten nest].
  rewrite indexOf_app by done.
  destruct (flatten ((with_spread <$> layers) ++ tail)) as [[inner|e] rest] eqn:Hin;
    simpl in IH; [|done].
  injection IH as ->.
  rewrite slice_to_before, slice_from_after.
  assert (Hclean : spread ∉ nest layers core).
  { eapply flatten_Ok. by rewrite Hin. }
  assert (Hno : includes spread (before ++ nest layers core ++ after) = false).
  { apply includes_false. rewrite !elem_of_app. tauto. }
  by rewrite Hno.
Qed.

(** X1. Whatever the keys of the mapping are: a value that [matchGlobMap]
    returns is the value of a declared pattern that matches the path, and it
    returns null only when no declared pattern matches. *)
Theorem matchGlobMap_sound_complete {T} (host : Host) (filePath : FilePath)
    (globMap : Obj.t T) :
  match matchGlobMap host filePath globMap with
  | Some v => ∃ pattern, (pattern, v) ∈ globMap
                ∧ isGlobMatch host filePath pattern = true
  | None => ∀ pattern, pattern ∈ globMap.*1 →
              isGlobMatch host filePath pattern = false
  end.
Proof.
  unfold matchGlobMap.
  pose proof (loop_outcome host filePath globMap (Obj.for_in globMap)
                (for_in_declared globMap)) as H.
  destruct (matchGlobMap_loop host filePath globMap (Obj.for_in globMap)) as [v|].
  - destruct H as (pattern & _ & Hget & Hm). exists pattern.
    split; [by apply get_Some_elem|done].
  - intros pattern Hin. by apply H, declared_for_in.
Qed.

(** X2. A pipeline that [matchGlobMapPipelines] returns has no spread marker
    left, and each of its entries stands in the pipeline of a declared pattern
    that matches the path. *)
Theorem matchGlobMapPipelines_entries (host : Host) (filePath : FilePath)
    (globMap : Obj.t Pipeline) (pipeline : Pipeline) :
  matchGlobMapPipelines host filePath globMap = Ok pipeline →
  (spread ∉ pipeline)
  ∧ (∀ plugin, plugin ∈ pipeline →
       ∃ pattern declared, (pattern, declared) ∈ globMap
         ∧ isGlobMatch host filePath pattern = true
         ∧ plugin ∈ declared).
Proof.
  unfold matchGlobMapPipelines. intros Hok. split; [by eapply flatten_Ok|].
  intros plugin Hin.
  destruct (flatten_elem _ _ _ Hok Hin) as (q & Hq & Hpq).
  destruct (collect_elem host filePath globMap _ q (for_in_declared globMap) Hq)
    as (pattern & Hentry & Hm).
  by exists pattern, q.
Qed.

Lemma matchGlobMapPipelines_entries_css :
  matchGlobMapPipelines (Demo.host "2.3.1") "x.module.css" Demo.css_transforms
  = Ok ["parcel-transformer-modules"; "parcel-transformer-css";
        "parcel-transformer-minify"]
  ∧ spread ∉ ["parcel-transformer-modules"; "parcel-transformer-css";
               "parcel-transformer-minify"].
Proof.
  assert (H : matchGlobMapPipelines (Demo.host "2.3.1") "x.module.css"
                Demo.css_transforms
              = Ok ["parcel-transformer-modules"; "parcel-transformer-css";
                    "parcel-transformer-minify"]) by by_computing.
  split; [exact H|].
  exact (proj1 (matchGlobMapPipelines_entries (Demo.host "2.3.1") "x.module.css"
                  Demo.css_transforms _ H)).
Defined.

(** X3. [matchGlobMapPipelines] fails exactly when the recursion reaches a
    pipeline with two or more markers, that is, when the queue of matching
    pipelines has such a pipeline after pipelines that all have a marker; and
    the error is then the spread error. *)
Theorem matchGlobMapPipelines_fails_iff (host : Host) (filePath : FilePath)
    (globMap : Obj.t Pipeline) :
  match matchGlobMapPipelines host filePath globMap with
  | Err e =>
      e = spread_error
      ∧ ∃ reached culprit rest,
          collect_matches host filePath globMap (Obj.for_in globMap)
          = reached ++ culprit :: rest
          ∧ Forall (λ p, spread ∈ p) reached
          ∧ 2 ≤ spread_count culprit
  | Ok _ =>
      ¬ ∃ reached culprit rest,
          collect_matches host filePath globMap (Obj.for_in globMap)
          = reached ++ culprit :: rest
          ∧ Forall (λ p, spread ∈ p) reached
          ∧ 2 ≤ spread_count culprit
  end.
Proof.
  unfold matchGlobMapPipelines.
  destruct (flatten (collect_matches host filePath globMap (Obj.for_in globMap))).1
    as [p|e] eqn:Hf.
  - intros (reached & culprit & rest & Hq & Hr & Hc).
    rewrite Hq, flatten_two_spreads in Hf; [done| |done].
    eapply Forall_impl; [exact Hr|]. intros q. apply spread_count_elem.
  - split; [by eapply flatten_Err|]. by eapply flatten_Err_culprit.
Qed.

(** X4. Pipelines that have one marker each, followed in the queue by a
    pipeline without marker, compose by nesting: each pipeline takes the
    composition of the later ones in place of its marker. What follows the
    pipeline without marker is ignored; in particular a first matching
    pipeline without marker is the result. *)
Theorem matchGlobMapPipelines_nested (host : Host) (filePath : FilePath)
    (globMap : Obj.t Pipeline) (layers : list (Pipeline * Pipeline))
    (core : Pipeline) (ignored : list Pipeline) :
  collect_matches host filePath globMap (Obj.for_in globMap)
  = (with_spread <$> layers) ++ core :: ignored →
  Forall (λ layer, (spread ∉ fst layer) ∧ (spread ∉ snd layer)) layers →
  spread ∉ core →
  matchGlobMapPipelines host filePath globMap = Ok (nest layers core).
Proof.
  intros Hq Hlayers Hcore. unfold matchGlobMapPipelines. rewrite Hq.
  apply flatten_nest; [done|]. simpl.
  apply indexOf_None in Hcore as Hi. rewrite Hi.
  apply includes_false in Hcore. by rewrite Hcore.
Qed.

Lemma matchGlobMapPipelines_nested_css :
  collect_matches (Demo.host "2.3.1") "x.module.css" Demo.css_transforms
    (Obj.for_in Demo.css_transforms)
  = (with_spread <$> [(["parcel-transformer-modules"], ["parcel-transformer-minify"])])
    ++ ["parcel-transformer-css"] :: []
  ∧ matchGlobMapPipelines (Demo.host "2.3.1") "x.module.css" Demo.css_transforms
    = Ok (nest [(["parcel-transformer-modules"], ["parcel-transformer-minify"])]
            ["parcel-transformer-css"]).
Proof.
  assert (Hq : collect_matches (Demo.host "2.3.1") "x.module.css" Demo.css_transforms
                 (Obj.for_in Demo.css_transforms)
               = (with_spread <$> [(["parcel-transformer-modules"],
                                     ["parcel-transformer-minify"])])
                 ++ ["parcel-transformer-css"] :: []) by by_computing.
  split; [exact Hq|].
  apply (matchGlobMapPipelines_nested (Demo.host "2.3.1") "x.module.css"
           Demo.css_transforms _ _ _ Hq); by_computing.
Defined.

(** X5. When every matching pipeline has exactly one marker, the queue runs
    out at the innermost marker, which is replaced by nothing: the result is
    the nesting around the empty pipeline. *)
Theorem matchGlobMapPipelines_all_spread (host : Host) (filePath : FilePath)
    (globMap : Obj.t Pipeline) (layers : list (Pipeline * Pipeline)) :
  collect_matches host filePath globMap (Obj.for_in globMap)
  = with_spread <$> layers →
  Forall (λ layer, (spread ∉ fst layer) ∧ (spread ∉ snd layer)) layers →
  matchGlobMapPipelines host filePath globMap = Ok (nest layers []).
Proof.
  intros Hq Hlayers. unfold matchGlobMapPipelines. rewrite Hq.
  rewrite <- (app_nil_r (with_spread <$> layers)).
  by apply flatten_nest.
Qed.

Lemma matchGlobMapPipelines_all_spread_css :
  collect_matches (Demo.host "2.3.1") "x.module.css"
    [("*.module.css", ["parcel-transformer-modules"; "..."]);
     ("*.css", ["..."; "parcel-transformer-css"])]
    (Obj.for_in [("*.module.css", ["parcel-transformer-modules"; "..."]);
                 ("*.css", ["..."; "parcel-transformer-css"])])
  = with_spread <$> [(["parcel-transformer-modules"], []);
                     ([], ["parcel-transformer-css"])]
  ∧ matchGlobMapPipelines (Demo.host "2.3.1") "x.module.css"
      [("*.module.css", ["parcel-transformer-modules"; "..."]);
       ("*.css", ["..."; "parcel-transformer-css"])]
    = Ok (nest [(["parcel-transformer-modules"], []);
                ([], ["parcel-transformer-css"])] []).
Proof.
  assert (Hq : collect_matches (Demo.host "2.3.1") "x.module.css"
                 [("*.module.css", ["parcel-transformer-modules"; "..."]);
                  ("*.css", ["..."; "parcel-transformer-css"])]
                 (Obj.for_in [("*.module.css", ["parcel-transformer-modules"; "..."]);
                              ("*.css", ["..."; "parcel-transformer-css"])])
               = with_spread <$> [(["parcel-transformer-modules"], []);
                                  ([], ["parcel-transformer-css"])]) by by_computing.
  split; [exact Hq|].
  apply (matchGlobMapPipelines_all_spread (Demo.host "2.3.1") "x.module.css"
           _ _ Hq); by_computing.
Defined.

(** X6. On a mapping to pipelines the two lookups agree when the first match
    has no marker: what [matchGlobMap] returns is then the pipeline that
    [matchGlobMapPipelines] returns. *)
Theorem matchGlobMapPipelines_agrees_with_matchGlobMap (host : Host)
    (filePath : FilePath) (globMap : Obj.t Pipeline) (pipeline : Pipeline) :
  matchGlobMap host filePath globMap = Some pipeline →
  spread ∉ pipeline →
  matchGlobMapPipelines host filePath globMap = Ok pipeline.
Proof.
  unfold matchGlobMap, matchGlobMapPipelines. intros Hm Hclean.
  destruct (loop_collect host filePath globMap _ _ Hm) as [rest Hq].
  rewrite Hq. simpl.
  apply indexOf_None in Hclean as Hi. rewrite Hi.
  apply includes_false in Hclean. by rewrite Hclean.
Qed.

Lemma matchGlobMapPipelines_agrees_with_matchGlobMap_js :
  matchGlobMap (Demo.host "2.3.1") "src/index.js" Demo.css_transforms
  = Some ["parcel-transformer-js"]
  ∧ matchGlobMapPipelines (Demo.host "2.3.1") "src/index.js" Demo.css_transforms
    = Ok ["parcel-transformer-js"].
Proof.
  assert (Hm : matchGlobMap (Demo.host "2.3.1") "src/index.js" Demo.css_transforms
               = Some ["parcel-transformer-js"]) by by_computing.
  split; [exact Hm|].
  apply (matchGlobMapPipelines_agrees_with_matchGlobMap (Demo.host "2.3.1")
           "src/index.js" Demo.css_transforms _ Hm); by_computing.
Defined.

(** ** One load *)

Section LoadFacts.
Variable host : Host.

(** The result of one call, read off the cache and the continuation. *)
Lemma loadPlugin_result pluginName w :
  (loadPlugin host pluginName w).1
  = match cache_hit (this w) pluginName with
    | Some cached => Ok cached
    | None => (resume_outcome host pluginName (configPath (this w))).1
    end.
Proof.
  destruct (cache_hit (this w) pluginName) as [p|] eqn:Hhit.
  - by rewrite (loadPlugin_hit _ _ _ _ Hhit).
  - by rewrite (loadPlugin_miss_outcome _ _ _ Hhit).
Qed.

End LoadFacts.

(** X7. The module of a plugin is required only behind the version gate: a
    call of [loadPlugin] only appends to the trace, and when it requires a
    module, then the resolution gave that module and the package either
    declares no range or declares one that the host version satisfies. *)
Theorem loadPlugin_requires_behind_gate (host : Host) (pluginName : PackageName)
    (w : world) :
  ∃ events,
    trace (loadPlugin host pluginName w).2 = trace w ++ events
    ∧ ∀ resolved, ERequire resolved ∈ events →
        ∃ pkg,
          localResolve host pluginName (configPath (this w)) = Ok (resolved, pkg)
          ∧ match parcelVersionRange pkg with
            | Some range => satisfies host (PARCEL_VERSION host) range = true
            | None => True
            end.
Proof.
  destruct (cache_hit (this w) pluginName) as [p|] eqn:Hhit.
  { exists []. rewrite (loadPlugin_hit _ _ _ _ Hhit). simpl.
    split; [by rewrite app_nil_r|]. intros resolved Hin. by apply elem_of_nil in Hin. }
  rewrite (loadPlugin_miss_outcome _ _ _ Hhit). simpl.
  eexists. split; [reflexivity|].
  intros resolved Hin. apply elem_of_cons in Hin as [Hin|Hin]; [done|].
  rewrite resume_outcome_cases in Hin.
  destruct (localResolve host pluginName (configPath (this w)))
    as [[resolved' pkg]|e]; simpl in Hin; [|by apply elem_of_nil in Hin].
  exists pkg.
  destruct (parcelVersionRange pkg) as [range|].
  - destruct (satisfies host (PARCEL_VERSION host) range); simpl in Hin.
    + apply elem_of_cons in Hin as [Hin|Hin]; [done|].
      apply list_elem_of_singleton in Hin. by injection Hin as ->.
    + apply list_elem_of_singleton in Hin. done.
  - simpl in Hin. apply elem_of_cons in Hin as [Hin|Hin]; [done|].
    apply list_elem_of_singleton in Hin. by injection Hin as ->.
Qed.



(** X9. When the resolution fails, [loadPlugin] fails with the very error of
    the resolver; besides asking for the resolution it does nothing: no
    warning, no version check, no module required, nothing stored. *)
Theorem loadPlugin_resolution_failure (host : Host) (pluginName : PackageName)
    (w : world) (e : exn) :
  cache_hit (this w) pluginName = None →
  localResolve host pluginName (configPath (this w)) = Err e →
  loadPlugin host pluginName w
  = (Err e, emit (EResolve pluginName (configPath (this w))) w).
Proof.
  intros Hmiss Hres.
  rewrite (loadPlugin_miss_outcome _ _ _ Hmiss), resume_outcome_cases, Hres.
  by destruct w.
Qed.

Lemma loadPlugin_resolution_failure_missing :
  (cache_hit (this (Demo.boot empty_config)) "parcel-namer-none" = None
   ∧ Demo.resolve "parcel-namer-none" "/app/.parcelrc"
     = Err (Error "Cannot find module 'parcel-namer-none'"))
  ∧ loadPlugin (Demo.host "2.3.1") "parcel-namer-none" (Demo.boot empty_config)
    = (Err (Error "Cannot find module 'parcel-namer-none'"),
       emit (EResolve "parcel-namer-none" "/app/.parcelrc") (Demo.boot empty_config)).
Proof.
  assert (H1 : cache_hit (this (Demo.boot empty_config)) "parcel-namer-none"
               = None) by by_computing.
  assert (H2 : Demo.resolve "parcel-namer-none" "/app/.parcelrc"
               = Err (Error "Cannot find module 'parcel-namer-none'"))
    by by_computing.
  split; [by split|].
  exact (loadPlugin_resolution_failure (Demo.host "2.3.1") "parcel-namer-none"
           (Demo.boot empty_config) _ H1 H2).
Defined.

(** X10. A call of [loadPlugin] leaves the cache entries of all other
    identifiers as they are. *)
Theorem loadPlugin_frame (host : Host) (pluginName other : PackageName)
    (w : world) :
  other ≠ pluginName →
  pluginCache (this (loadPlugin host pluginName w).2) !! other
  = pluginCache (this w) !! other.
Proof.
  intros Hne.
  destruct (loadPlugin_this host pluginName w) as [->|(p & _ & _ & ->)]; [done|].
  simpl. by rewrite lookup_insert_ne.
Qed.

Lemma loadPlugin_frame_js :
  "parcel-plugin-legacy" ≠ "parcel-transformer-js"
  ∧ pluginCache
      (this (loadPlugin (Demo.host "2.3.1") "parcel-transformer-js"
               (again (Demo.host "2.3.1") "parcel-plugin-legacy" 1
                  (Demo.boot empty_config))).2) !! "parcel-plugin-legacy"
    = pluginCache
        (this (again (Demo.host "2.3.1") "parcel-plugin-legacy" 1
                 (Demo.boot empty_config))) !! "parcel-plugin-legacy".
Proof.
  assert (H : "parcel-plugin-legacy" ≠ "parcel-transformer-js") by discriminate.
  split; [exact H|].
  exact (loadPlugin_frame (Demo.host "2.3.1") "parcel-transformer-js"
           "parcel-plugin-legacy" _ H).
Defined.

(** X11. Whatever [loadPlugin] returns is what the cache holds for the
    identifier when the call has ended, on a hit as on a miss. *)
Theorem loadPlugin_returns_cached (host : Host) (pluginName : PackageName)
    (w w1 : world) (plugin : value) :
  loadPlugin host pluginName w = (Ok plugin, w1) →
  pluginCache (this w1) !! pluginName = Some plugin.
Proof.
  intros Hload.
  destruct (cache_hit (this w) pluginName) as [p|] eqn:Hhit.
  - rewrite (loadPlugin_hit _ _ _ _ Hhit) in Hload. injection Hload as -> ->.
    by apply cache_hit_Some in Hhit as [? _].
  - rewrite (loadPlugin_miss_outcome _ _ _ Hhit) in Hload.
    injection Hload as Hr Hw. rewrite <- Hw, Hr. simpl.
    by rewrite lookup_insert_eq.
Qed.

Lemma loadPlugin_returns_cached_legacy :
  loadPlugin (Demo.host "2.3.1") "parcel-plugin-legacy" (Demo.boot empty_config)
  = (Ok (VObject 6),
     again (Demo.host "2.3.1") "parcel-plugin-legacy" 1 (Demo.boot empty_config))
  ∧ pluginCache
      (this (again (Demo.host "2.3.1") "parcel-plugin-legacy" 1
               (Demo.boot empty_config))) !! "parcel-plugin-legacy"
    = Some (VObject 6).
Proof.
  assert (H : loadPlugin (Demo.host "2.3.1") "parcel-plugin-legacy"
                (Demo.boot empty_config)
              = (Ok (VObject 6),
                 again (Demo.host "2.3.1") "parcel-plugin-legacy" 1
                   (Demo.boot empty_config))) by by_computing.
  split; [exact H|].
  exact (loadPlugin_returns_cached (Demo.host "2.3.1") "parcel-plugin-legacy"
           _ _ _ H).
Defined.

(** ** A pipeline of loads *)

Lemma same_configuration_refl c : same_configuration c c.
Proof. by repeat split. Qed.

Lemma same_configuration_trans c1 c2 c3 :
  same_configuration c1 c2 → same_configuration c2 c3 → same_configuration c1 c3.
Proof.
  unfold same_configuration. intros (?&?&?&?&?&?&?&?&?) (?&?&?&?&?&?&?&?&?).
  repeat split; congruence.
Qed.

Lemma promise_all_Ok {A} (settled : list (result A)) l :
  promise_all settled = Ok l ↔ settled = Ok <$> l.
Proof.
  revert l. induction settled as [|[a|e] settled IH]; intros l; simpl.
  - split; [by intros [= <-]|]. by destruct l.
  - destruct (promise_all settled) as [l'|e'] eqn:Hp.
    + split.
      * intros [= <-]. simpl. f_equal. by apply IH.
      * destruct l as [|b l]; [done|]. simpl. intros [= -> Hs].
        apply IH in Hs. by injection Hs as ->.
    + split; [done|]. destruct l as [|b l]; [done|]. simpl. intros [= -> Hs].
      apply IH in Hs. done.
  - split; [done|]. by destruct l.
Qed.

Section PipelineFacts.
Variable host : Host.

Lemma commit_same_configuration pluginName r events w :
  same_configuration (this (commit pluginName r events w)) (this w).
Proof. destruct r; by repeat split. Qed.

Lemma loadPlugin_start_call pluginName w :
  loadPlugin_start pluginName w
  = (call_of (this w) pluginName,
     match cache_hit (this w) pluginName with
     | Some _ => w
     | None => emit (EResolve pluginName (configPath (this w))) w
     end).
Proof.
  unfold loadPlugin_start, call_of.
  by destruct (cache_hit (this w) pluginName).
Qed.

Lemma start_all_calls plugins w :
  (start_all plugins w).1 = call_of (this w) <$> plugins
  ∧ this (start_all plugins w).2 = this w.
Proof.
  revert w. induction plugins as [|name plugins IH]; intros w; [done|].
  cbn [start_all]. rewrite fmap_cons, loadPlugin_start_call.
  set (w' := match cache_hit (this w) name with
             | Some _ => w
             | None => emit (EResolve name (configPath (this w))) w
             end).
  assert (Hw' : this w' = this w).
  { subst w'. by destruct (cache_hit (this w) name). }
  destruct (IH w') as [Hc Ht].
  destruct (start_all plugins w') as [ss w2]. cbn [fst snd] in *.
  by rewrite Hc, Ht, Hw'.
Qed.

Lemma start_all_resolutions pluginName plugins w :
  resolutions pluginName (trace (start_all plugins w).2)
  = resolutions pluginName (trace w)
    + match cache_hit (this w) pluginName with
      | Some _ => 0
      | None => occurrences pluginName plugins
      end.
Proof.
  revert w. induction plugins as [|name plugins IH]; intros w.
  { simpl. destruct (cache_hit (this w) pluginName); lia. }
  cbn [start_all occurrences]. unfold loadPlugin_start.
  destruct (cache_hit (this w) name) as [cached|] eqn:Hname.
  - specialize (IH w). destruct (start_all plugins w) as [ss w2]. simpl in *.
    rewrite IH. destruct (cache_hit (this w) pluginName) eqn:Hp; [done|].
    case_bool_decide; [congruence|lia].
  - specialize (IH (emit (EResolve name (configPath (this w))) w)).
    destruct (start_all plugins (emit (EResolve name (configPath (this w))) w))
      as [ss w2]. simpl in *.
    rewrite IH, resolutions_app. simpl.
    destruct (cache_hit (this w) pluginName) eqn:Hp.
    + case_bool_decide; [congruence|lia].
    + case_bool_decide; lia.
Qed.

Lemma start_all_hits plugins l w :
  Forall2 (λ name v, cache_hit (this w) name = Some v) plugins l →
  start_all plugins w = (Cached <$> l, w).
Proof.
  induction 1 as [|name v plugins l Hhit _ IH]; [done|].
  cbn [start_all]. unfold loadPlugin_start. by rewrite Hhit, IH.
Qed.

(** *** The promises *)

Lemma pending_from_lookup s calls k i name :
  pending_from s calls !! k = Some (i, name) →
  ∃ j, i = s + j ∧ calls !! j = Some (Awaiting name).
Proof.
  revert s k. induction calls as [|[plugin|name'] calls IH]; intros s k; simpl.
  - done.
  - intros H. destruct (IH _ _ H) as (j & -> & Hj). exists (S j). split; [lia|done].
  - destruct k as [|k]; simpl.
    + intros [= <- <-]. exists 0. split; [lia|done].
    + intros H. destruct (IH _ _ H) as (j & -> & Hj). exists (S j). split; [lia|done].
Qed.

Lemma pending_lookup calls k i name :
  pending calls !! k = Some (i, name) → calls !! i = Some (Awaiting name).
Proof.
  intros H. by destruct (pending_from_lookup 0 calls k i name H) as (j & -> & Hj).
Qed.

Lemma pending_from_length s s' calls :
  length (pending_from s calls) = length (pending_from s' calls).
Proof.
  revert s s'. induction calls as [|[plugin|name] calls IH]; intros s s'; simpl;
    [done|apply IH|f_equal; apply IH].
Qed.

Lemma pending_length_le calls : length (pending calls) ≤ length calls.
Proof.
  unfold pending. generalize 0.
  induction calls as [|[plugin|name] calls IH]; intros s; simpl; [lia| |].
  - specialize (IH (S s)). lia.
  - specialize (IH (S s)). lia.
Qed.

(** Fulfilling a promise that waits leaves one promise less waiting. *)
Lemma pending_insert_length calls i name plugin :
  calls !! i = Some (Awaiting name) →
  S (length (pending (<[i := Cached plugin]> calls))) = length (pending calls).
Proof.
  unfold pending. generalize 0. revert i.
  induction calls as [|[p|name'] calls IH]; intros i s; [done| |].
  - destruct i as [|i]; [done|]. simpl. apply IH.
  - destruct i as [|i]; simpl.
    + by intros _.
    + intros H. f_equal. by apply IH.
Qed.

Lemma pending_nil calls :
  pending calls = [] → calls = Cached <$> fulfilled calls.
Proof.
  unfold pending. generalize 0.
  induction calls as [|[p|name] calls IH]; intros s; simpl; [done| |done].
  intros H. f_equal. by eapply IH.
Qed.

Lemma pending_cached l : pending (Cached <$> l) = [].
Proof.
  unfold pending. generalize 0. induction l as [|v l IH]; intros s; [done|].
  rewrite fmap_cons. simpl. apply IH.
Qed.

Lemma fulfilled_cached l : fulfilled (Cached <$> l) = l.
Proof. induction l as [|v l IH]; [done|]. rewrite fmap_cons. simpl. by rewrite IH. Qed.

(** The first promise that waits stands behind fulfilled ones. *)
Lemma pending_from_head s calls i name rest :
  pending_from s calls = (i, name) :: rest →
  ∃ values tail,
    calls = (Cached <$> values) ++ Awaiting name :: tail.
Proof.
  revert s. induction calls as [|[p|name'] calls IH]; intros s; simpl; [done| |].
  - intros H. destruct (IH _ H) as (values & tail & ->).
    by exists (p :: values), tail.
  - intros [= <- <- _]. by exists [], calls.
Qed.

Lemma awaited_lookup calls i name :
  calls !! i = Some (Awaiting name) → awaited name calls = true.
Proof.
  revert i. induction calls as [|[p|name'] calls IH]; intros i; [done| |].
  - destruct i as [|i]; [done|]. simpl. apply IH.
  - destruct i as [|i]; simpl.
    + intros [= ->]. by rewrite bool_decide_eq_true_2.
    + intros H. rewrite (IH _ H). apply orb_true_r.
Qed.

Lemma awaited_insert_other calls i k plugin :
  awaited k (<[i := Cached plugin]> calls) = true → awaited k calls = true.
Proof.
  revert i. induction calls as [|[p|name'] calls IH]; intros i; [done| |].
  - destruct i as [|i]; [done|]. simpl. apply IH.
  - destruct i as [|i]; simpl.
    + intros ->. apply orb_true_r.
    + rewrite !orb_true_iff. intros [?|H]; [by left|right; by eapply IH].
Qed.

Lemma awaited_insert_ne calls i name k plugin :
  calls !! i = Some (Awaiting name) → k ≠ name →
  awaited k (<[i := Cached plugin]> calls) = awaited k calls.
Proof.
  revert i. induction calls as [|[p|name'] calls IH]; intros i; [done| |].
  - destruct i as [|i]; [done|]. simpl. apply IH.
  - destruct i as [|i]; simpl.
    + intros [= ->] Hne. by rewrite bool_decide_eq_false_2.
    + intros H Hne. by rewrite (IH _ H Hne).
Qed.

Lemma awaited_pending_nil calls k : pending calls = [] → awaited k calls = false.
Proof.
  unfold pending. generalize 0.
  induction calls as [|[p|name] calls IH]; intros s; simpl; [done| |done].
  apply IH.
Qed.

Lemma settles_to_insert base (calls : list started) (i : nat) name plugin :
  calls !! i = Some (Awaiting name) →
  (resume_outcome host name base).1 = Ok plugin →
  settles_to host base <$> (<[i := Cached plugin]> calls)
  = settles_to host base <$> calls.
Proof.
  intros Hi Hout. rewrite list_fmap_insert. apply list_insert_id.
  rewrite list_lookup_fmap, Hi. simpl. by rewrite Hout.
Qed.

Lemma promise_all_app {A} (values : list A) (rest : list (result A)) :
  promise_all ((Ok <$> values) ++ rest)
  = match promise_all rest with
    | Ok l => Ok (values ++ l)
    | Err e => Err e
    end.
Proof.
  induction values as [|v values IH].
  - simpl. by destruct (promise_all rest).
  - rewrite fmap_cons. cbn [app promise_all]. rewrite IH.
    by destruct (promise_all rest).
Qed.

Lemma settle_all_cached fuel l w :
  settle_all host fuel (Cached <$> l) w = (Ok (Cached <$> l), w).
Proof. destruct fuel; [done|]. simpl. by rewrite pending_cached. Qed.

(** One step of the continuation of a waiting call. *)
Lemma resume_step pluginName w :
  ∃ r events,
    resume_outcome host pluginName (configPath (this w)) = (r, events)
    ∧ loadPlugin_resume host pluginName w = (r, commit pluginName r events w)
    ∧ configPath (this (commit pluginName r events w)) = configPath (this w)
    ∧ same_configuration (this (commit pluginName r events w)) (this w)
    ∧ (∀ name, resolutions name (trace (commit pluginName r events w))
               = resolutions name (trace w))
    ∧ (∀ k, k ≠ pluginName →
            pluginCache (this (commit pluginName r events w)) !! k
            = pluginCache (this w) !! k)
    ∧ (∀ plugin, r = Ok plugin →
            pluginCache (this (commit pluginName r events w)) !! pluginName
            = Some plugin)
    ∧ (∀ e, r = Err e → this (commit pluginName r events w) = this w).
Proof.
  destruct (resume_outcome host pluginName (configPath (this w)))
    as [r events] eqn:Hout.
  exists r, events. split; [done|].
  split; [by rewrite resume_uniform, Hout|].
  split; [by destruct r|].
  split; [apply commit_same_configuration|].
  split.
  { intros name. unfold commit. cbn [trace]. rewrite resolutions_app.
    pose proof (resume_no_resolve host pluginName name (configPath (this w))) as H.
    rewrite Hout in H. simpl in H. rewrite H. lia. }
  split.
  { intros k Hk. destruct r; simpl; [by rewrite lookup_insert_ne|done]. }
  split.
  { intros plugin ->. simpl. by rewrite lookup_insert_eq. }
  by intros e ->.
Qed.

(** What the promises settle to, whatever the order: the configuration and
    the number of resolutions stay, entries of names that do not wait stay;
    when all promises are fulfilled their values are what each call settles
    to and every name that waited is in the cache; when one is rejected, the
    error is that of a call that waited. *)
Lemma settle_all_spec fuel calls w :
  length (pending calls) ≤ fuel →
  same_configuration (this (settle_all host fuel calls w).2) (this w)
  ∧ (∀ name, resolutions name (trace (settle_all host fuel calls w).2)
             = resolutions name (trace w))
  ∧ (∀ k, awaited k calls = false →
          pluginCache (this (settle_all host fuel calls w).2) !! k
          = pluginCache (this w) !! k)
  ∧ match (settle_all host fuel calls w).1 with
    | Ok calls' =>
        settles_to host (configPath (this w)) <$> calls = Ok <$> fulfilled calls'
        ∧ calls' = Cached <$> fulfilled calls'
        ∧ (∀ k, awaited k calls = true →
             ∃ plugin,
               (resume_outcome host k (configPath (this w))).1 = Ok plugin
               ∧ pluginCache (this (settle_all host fuel calls w).2) !! k
                 = Some plugin)
    | Err e =>
        ∃ i name, calls !! i = Some (Awaiting name)
          ∧ (resume_outcome host name (configPath (this w))).1 = Err e
    end.
Proof.
  revert calls w. induction fuel as [|fuel IH]; intros calls w Hfuel.
  - assert (Hnil : pending calls = []).
    { destruct (pending calls); [done|simpl in Hfuel; lia]. }
    simpl. split; [apply same_configuration_refl|]. split; [done|]. split; [done|].
    pose proof (pending_nil _ Hnil) as Hc.
    split; [|split; [done|]].
    + rewrite Hc at 1. rewrite <- list_fmap_compose. by apply list_fmap_ext.
    + intros k Hk. by rewrite (awaited_pending_nil _ k Hnil) in Hk.
  - cbn [settle_all].
    destruct (pending calls !!
                (settle_next host (pending calls).*2 `mod` length (pending calls)))
      as [[i name]|] eqn:Hpick.
    + pose proof (pending_lookup _ _ _ _ Hpick) as Hi.
      destruct (resume_step name w)
        as (r & events & Hout & -> & Hbase & Hconf & Hres & Hother & Hstored & Hfail).
      set (w' := commit name r events w) in *.
      destruct r as [plugin|e].
      * assert (Hfuel' : length (pending (<[i := Cached plugin]> calls)) ≤ fuel).
        { pose proof (pending_insert_length calls i name plugin Hi). lia. }
        destruct (IH (<[i := Cached plugin]> calls) w' Hfuel')
          as (Hc2 & Hr2 & Hframe2 & Hmatch).
        rewrite Hbase in Hmatch.
        assert (Hout1 : (resume_outcome host name (configPath (this w))).1
                        = Ok plugin) by (by rewrite Hout).
        split; [by eapply same_configuration_trans|].
        split; [intros k; by rewrite Hr2, Hres|].
        split.
        { intros k Hk.
          assert (Hne : k ≠ name).
          { intros ->. by rewrite (awaited_lookup _ _ _ Hi) in Hk. }
          rewrite Hframe2; [by apply Hother|].
          by rewrite (awaited_insert_ne _ _ _ _ _ Hi Hne). }
        destruct (settle_all host fuel (<[i := Cached plugin]> calls) w').1
          as [calls'|e'].
        -- destruct Hmatch as (Hvalues & Hcalls' & Hcached).
           split.
           { rewrite <- Hvalues. symmetry.
             by apply (settles_to_insert _ _ _ name). }
           split; [done|].
           intros k Hk.
           destruct (awaited k (<[i := Cached plugin]> calls)) eqn:Hk2.
           ++ by apply Hcached.
           ++ assert (k = name) as ->.
              { destruct (decide (k = name)) as [|Hne]; [done|].
                rewrite (awaited_insert_ne _ _ _ _ _ Hi Hne) in Hk2. congruence. }
              exists plugin. split; [done|].
              rewrite Hframe2 by done. by apply Hstored.
        -- destruct Hmatch as (i' & name' & Hi' & Hout').
           exists i', name'. split; [|done].
           destruct (decide (i = i')) as [->|Hne].
           ++ rewrite list_lookup_insert_eq in Hi'; [done|].
              by eapply lookup_lt_Some.
           ++ by rewrite list_lookup_insert_ne in Hi'.
      * cbn [fst snd].
        split; [done|]. split; [done|].
        split.
        { intros k Hk. apply Hother. intros ->.
          by rewrite (awaited_lookup _ _ _ Hi) in Hk. }
        exists i, name. split; [done|]. by rewrite Hout.
    + assert (Hnil : pending calls = []).
      { destruct (pending calls) as [|x l] eqn:Hp; [done|].
        apply lookup_ge_None in Hpick.
        pose proof (Nat.mod_upper_bound (settle_next host (x :: l).*2)
                      (length (x :: l))) as Hlt.
        simpl in *. lia. }
      cbn [fst snd].
      split; [apply same_configuration_refl|]. split; [done|]. split; [done|].
      pose proof (pending_nil _ Hnil) as Hc.
      split; [|split; [done|]].
      * rewrite Hc at 1. rewrite <- list_fmap_compose. by apply list_fmap_ext.
      * intros k Hk. by rewrite (awaited_pending_nil _ k Hnil) in Hk.
Qed.

(** When the resolutions settle in the order of the requests, the outcome is
    that of [promise_all]. *)
Lemma settle_all_in_request_order fuel calls w :
  in_request_order host →
  length (pending calls) ≤ fuel →
  match (settle_all host fuel calls w).1 with
  | Ok calls' => Ok (fulfilled calls')
  | Err e => Err e
  end
  = promise_all (settles_to host (configPath (this w)) <$> calls).
Proof.
  intros Horder. revert calls w.
  assert (Hdone : ∀ calls base, pending calls = [] →
            promise_all (settles_to host base <$> calls) = Ok (fulfilled calls)).
  { intros calls base Hnil. rewrite (pending_nil _ Hnil) at 1.
    rewrite <- list_fmap_compose.
    apply promise_all_Ok. by apply list_fmap_ext. }
  induction fuel as [|fuel IH]; intros calls w Hfuel.
  - assert (Hnil : pending calls = []).
    { destruct (pending calls); [done|simpl in Hfuel; lia]. }
    simpl. symmetry. by apply Hdone.
  - cbn [settle_all]. rewrite Horder, Nat.Div0.mod_0_l.
    destruct (pending calls) as [|[i name] rest] eqn:Hp.
    { simpl. symmetry. by apply Hdone. }
    cbn [lookup list_lookup].
    assert (Hi : calls !! i = Some (Awaiting name)).
    { apply (pending_lookup calls 0). by rewrite Hp. }
    destruct (pending_from_head 0 calls i name rest Hp) as (values & tail & Hcalls).
    destruct (resume_step name w)
      as (r & events & Hout & -> & Hbase & _).
    destruct r as [plugin|e].
    + assert (Hout1 : (resume_outcome host name (configPath (this w))).1
                      = Ok plugin) by (by rewrite Hout).
      rewrite IH.
      * rewrite Hbase. by rewrite (settles_to_insert _ _ _ name).
      * pose proof (pending_insert_length calls i name plugin Hi) as Hl.
        rewrite Hp in Hl. simpl in Hl, Hfuel. lia.
    + cbn [fst]. rewrite Hcalls, fmap_app, <- list_fmap_compose.
      assert (Hv : settles_to host (configPath (this w)) ∘ Cached <$> values
                   = Ok <$> values) by (by apply list_fmap_ext).
      rewrite Hv, promise_all_app, fmap_cons. simpl. by rewrite Hout.
Qed.

Lemma awaited_call_of c k plugins :
  awaited k (call_of c <$> plugins) = true
  ↔ k ∈ plugins ∧ cache_hit c k = None.
Proof.
  induction plugins as [|name plugins IH]; simpl.
  - split; [done|]. intros [Hin _]. by apply elem_of_nil in Hin.
  - unfold call_of at 1. destruct (cache_hit c name) as [v|] eqn:Hname.
    + rewrite IH, elem_of_cons. split.
      * intros [Hin Hk]. split; [by right|done].
      * intros [[->|Hin] Hk]; [congruence|done].
    + simpl. rewrite orb_true_iff, IH, bool_decide_eq_true, elem_of_cons.
      split.
      * intros [->|[? ?]]; [split; [by left|done]|split; [by right|done]].
      * intros [[->|Hin] Hk]; [by left|by right].
Qed.

Lemma settles_to_call_of w name :
  settles_to host (configPath (this w)) (call_of (this w) name)
  = (loadPlugin host name w).1.
Proof.
  rewrite loadPlugin_result. unfold call_of.
  by destruct (cache_hit (this w) name).
Qed.

Lemma outcomes_call_of w (plugins : Pipeline) :
  settles_to host (configPath (this w)) <$> (call_of (this w) <$> plugins)
  = (λ name, (loadPlugin host name w).1) <$> plugins.
Proof.
  rewrite <- list_fmap_compose. apply list_fmap_ext.
  intros _ name _. apply settles_to_call_of.
Qed.

(** What [loadPlugins] leaves, whatever the order in which the resolutions
    settle. *)
Lemma loadPlugins_spec plugins w :
  same_configuration (this (loadPlugins host plugins w).2) (this w)
  ∧ (∀ name, resolutions name (trace (loadPlugins host plugins w).2)
             = resolutions name (trace w)
               + match cache_hit (this w) name with
                 | Some _ => 0
                 | None => occurrences name plugins
                 end)
  ∧ (∀ k, k ∉ plugins →
          pluginCache (this (loadPlugins host plugins w).2) !! k
          = pluginCache (this w) !! k)
  ∧ match (loadPlugins host plugins w).1 with
    | Ok loaded =>
        (λ name, (loadPlugin host name w).1) <$> plugins = Ok <$> loaded
        ∧ (∀ name plugin, name ∈ plugins →
             (loadPlugin host name w).1 = Ok plugin →
             pluginCache (this (loadPlugins host plugins w).2) !! name
             = Some plugin)
    | Err e =>
        ∃ name, name ∈ plugins ∧ (loadPlugin host name w).1 = Err e
    end.
Proof.
  unfold loadPlugins.
  destruct (start_all_calls plugins w) as [Hcalls Hthis].
  pose proof (start_all_resolutions) as Hstart.
  assert (Hstart' : ∀ name, resolutions name (trace (start_all plugins w).2)
            = resolutions name (trace w)
              + match cache_hit (this w) name with
                | Some _ => 0
                | None => occurrences name plugins
                end) by (intros; apply start_all_resolutions).
  destruct (start_all plugins w) as [calls w1]. cbn [fst snd] in *.
  destruct (settle_all_spec (length calls) calls w1 (pending_length_le calls))
    as (Hconf & Hres & Hframe & Hmatch).
  rewrite Hthis in Hconf, Hframe, Hmatch. subst calls.
  rewrite outcomes_call_of in Hmatch.
  destruct (settle_all host (length (call_of (this w) <$> plugins))
              (call_of (this w) <$> plugins) w1) as [[calls'|e] w2].
  - cbn [fst snd] in *.
    split; [done|]. split; [intros name; by rewrite Hres, Hstart'|].
    split.
    { intros k Hk. apply Hframe. apply not_true_iff_false.
      rewrite awaited_call_of. by intros [? _]. }
    destruct Hmatch as (Hvalues & _ & Hcached).
    split; [done|].
    intros name plugin Hin Hload. rewrite loadPlugin_result in Hload.
    destruct (cache_hit (this w) name) as [v|] eqn:Hhit.
    + injection Hload as ->. rewrite Hframe.
      * by apply cache_hit_Some in Hhit as [? _].
      * apply not_true_iff_false. rewrite awaited_call_of. intros [_ ?]. congruence.
    + destruct (Hcached name) as (p & Hp & Hc); [by apply awaited_call_of|].
      rewrite Hp in Hload. by injection Hload as ->.
  - cbn [fst snd] in *.
    split; [done|]. split; [intros name; by rewrite Hres, Hstart'|].
    split.
    { intros k Hk. apply Hframe. apply not_true_iff_false.
      rewrite awaited_call_of. by intros [? _]. }
    destruct Hmatch as (i & name & Hi & Hout).
    apply list_lookup_fmap_Some in Hi as (name' & Hi & Hname').
    unfold call_of in Hi.
    destruct (cache_hit (this w) name') as [v|] eqn:Hhit; [done|].
    injection Hi as ->. exists name'.
    split; [by eapply list_elem_of_lookup_2|].
    by rewrite loadPlugin_result, Hhit.
Qed.

Lemma loadPlugins_again plugins w w1 l :
  loadPlugins host plugins w = (Ok l, w1) →
  Forall (λ v, truthy v = true) l →
  loadPlugins host plugins w1 = (Ok l, w1).
Proof.
  intros Hload Htruthy.
  assert (Hhits : Forall2 (λ name v, cache_hit (this w1) name = Some v) plugins l).
  { destruct (loadPlugins_spec plugins w) as (_ & _ & _ & Hmatch).
    rewrite Hload in Hmatch. cbn [fst snd] in Hmatch.
    destruct Hmatch as [Hres Hcached].
    clear Hload. revert l Hres Htruthy Hcached.
    induction plugins as [|name plugins IH]; intros l Hres Htruthy Hcached.
    - destruct l; [constructor|done].
    - destruct l as [|v l]; [done|]. injection Hres as Hv Hres.
      apply Forall_cons in Htruthy as [Hv' Htruthy].
      constructor.
      + apply cache_hit_Some. split; [|done].
        apply Hcached; [apply elem_of_cons; by left|done].
      + apply IH; [done|done|].
        intros name' plugin Hin. apply Hcached. apply elem_of_cons. by right. }
  unfold loadPlugins. rewrite (start_all_hits _ _ _ Hhits), settle_all_cached.
  by rewrite fulfilled_cached.
Qed.

(** Under request order the outcome is the one of [promise_all]. *)
Lemma loadPlugins_in_request_order plugins w :
  in_request_order host →
  (loadPlugins host plugins w).1
  = promise_all ((λ name, (loadPlugin host name w).1) <$> plugins).
Proof.
  intros Horder. unfold loadPlugins.
  destruct (start_all_calls plugins w) as [Hcalls Hthis].
  destruct (start_all plugins w) as [calls w1]. cbn [fst snd] in *.
  pose proof (settle_all_in_request_order (length calls) calls w1 Horder
                (pending_length_le calls)) as H.
  assert (Hbase : configPath (this w1) = configPath (this w)) by (by rewrite Hthis).
  rewrite Hbase in H. subst calls. rewrite <- outcomes_call_of.
  rewrite <- H.
  by destruct (settle_all host (length (call_of (this w) <$> plugins))
                 (call_of (this w) <$> plugins) w1) as [[calls'|e] w2].
Qed.

End PipelineFacts.

(** X12. [loadPlugins] returns, in the order of the pipeline, what a call of
    [loadPlugin] for each name would return in the world the pipeline starts
    in: it is fulfilled with a list exactly when these calls return the
    plugins of that list, whatever the order in which the resolutions settle,
    and an earlier name of the pipeline does not change what a later one
    returns. When it is rejected, the error is that of a name of the pipeline
    whose load fails; with the resolutions settling in the order of the
    requests it is that of the first such name of the pipeline. *)
Theorem loadPlugins_results (host : Host) (plugins : Pipeline) (w : world) :
  (∀ loaded,
     (loadPlugins host plugins w).1 = Ok loaded
     ↔ (λ name, (loadPlugin host name w).1) <$> plugins = Ok <$> loaded)
  ∧ (∀ e, (loadPlugins host plugins w).1 = Err e →
       ∃ name, name ∈ plugins ∧ (loadPlugin host name w).1 = Err e)
  ∧ (in_request_order host →
     (loadPlugins host plugins w).1
     = promise_all ((λ name, (loadPlugin host name w).1) <$> plugins)).
Proof.
  destruct (loadPlugins_spec host plugins w) as (_ & _ & _ & Hmatch).
  split; [|split].
  - intros loaded. split.
    + intros Hok. rewrite Hok in Hmatch. by destruct Hmatch as [? _].
    + intros Hall.
      destruct (loadPlugins host plugins w).1 as [loaded'|e].
      * destruct Hmatch as [Hvalues _]. rewrite Hall in Hvalues.
        assert (Hp : promise_all (Ok <$> loaded) = Ok loaded')
          by (by apply promise_all_Ok).
        assert (Hq : promise_all (Ok <$> loaded) = Ok loaded)
          by (by apply promise_all_Ok).
        congruence.
      * destruct Hmatch as (name & Hin & Hfail). exfalso.
        assert (Hmem : (loadPlugin host name w).1
                       ∈ (λ name, (loadPlugin host name w).1) <$> plugins).
        { apply list_elem_of_fmap. by exists name. }
        rewrite Hall, Hfail in Hmem.
        apply list_elem_of_fmap in Hmem as (v & Hv & _). done.
  - intros e He. by rewrite He in Hmatch.
  - apply loadPlugins_in_request_order.
Qed.

Lemma loadPlugins_results_demo :
  in_request_order (Demo.host "2.3.1")
  ∧ (loadPlugins (Demo.host "2.3.1")
       ["parcel-transformer-js"; "parcel-namer-none"; "parcel-plugin-legacy"]
       (Demo.boot empty_config)).1
    = promise_all
        ((λ name, (loadPlugin (Demo.host "2.3.1") name (Demo.boot empty_config)).1)
           <$> ["parcel-transformer-js"; "parcel-namer-none"; "parcel-plugin-legacy"]).
Proof.
  assert (H : in_request_order (Demo.host "2.3.1")) by (by intros waiting).
  split; [exact H|].
  exact (proj2 (proj2 (loadPlugins_results (Demo.host "2.3.1") _ _)) H).
Defined.

(** X13. Loading a pipeline asks for the resolution of a plugin once for each
    time the pipeline names it when the plugin misses the cache at the start,
    and not at all when it hits. *)
Theorem loadPlugins_resolution_count (host : Host) (pluginName : PackageName)
    (plugins : Pipeline) (w : world) :
  resolutions pluginName (trace (loadPlugins host plugins w).2)
  = resolutions pluginName (trace w)
    + match cache_hit (this w) pluginName with
      | Some _ => 0
      | None => occurrences pluginName plugins
      end.
Proof.
  destruct (loadPlugins_spec host plugins w) as (_ & Hres & _).
  apply Hres.
Qed.

(** X14. After a pipeline was loaded and all its plugins are truthy, loading
    the same pipeline again returns the same plugins and leaves the world as
    it is: every name hits the cache. *)
Theorem loadPlugins_second_call (host : Host) (plugins : Pipeline)
    (w w1 : world) (loaded : list value) :
  loadPlugins host plugins w = (Ok loaded, w1) →
  Forall (λ plugin, truthy plugin = true) loaded →
  loadPlugins host plugins w1 = (Ok loaded, w1).
Proof. apply loadPlugins_again. Qed.

Lemma loadPlugins_second_call_demo :
  loadPlugins (Demo.host "2.3.1") ["parcel-transformer-js"; "parcel-plugin-legacy"]
    (Demo.boot empty_config)
  = (Ok [VObject 3; VObject 6],
     (loadPlugins (Demo.host "2.3.1")
        ["parcel-transformer-js"; "parcel-plugin-legacy"]
        (Demo.boot empty_config)).2)
  ∧ loadPlugins (Demo.host "2.3.1") ["parcel-transformer-js"; "parcel-plugin-legacy"]
      (loadPlugins (Demo.host "2.3.1")
         ["parcel-transformer-js"; "parcel-plugin-legacy"]
         (Demo.boot empty_config)).2
    = (Ok [VObject 3; VObject 6],
       (loadPlugins (Demo.host "2.3.1")
          ["parcel-transformer-js"; "parcel-plugin-legacy"]
          (Demo.boot empty_config)).2).
Proof.
  assert (H : loadPlugins (Demo.host "2.3.1")
                ["parcel-transformer-js"; "parcel-plugin-legacy"]
                (Demo.boot empty_config)
              = (Ok [VObject 3; VObject 6],
                 (loadPlugins (Demo.host "2.3.1")
                    ["parcel-transformer-js"; "parcel-plugin-legacy"]
                    (Demo.boot empty_config)).2)) by by_computing.
  split; [exact H|].
  apply (loadPlugins_second_call (Demo.host "2.3.1") _ _ _ _ H).
  repeat constructor.
Defined.

(** X15. When [loadPlugins] is fulfilled, the cache holds for every name of
    the pipeline the plugin returned at its position, whatever the order in
    which the resolutions settled. (When it is rejected, the loads that still
    wait have stored nothing yet.) *)
Theorem loadPlugins_caches_loaded (host : Host) (plugins : Pipeline)
    (w w1 : world) (loaded : list value) :
  loadPlugins host plugins w = (Ok loaded, w1) →
  Forall2 (λ name plugin, pluginCache (this w1) !! name = Some plugin)
    plugins loaded.
Proof.
  intros Hload.
  destruct (loadPlugins_spec host plugins w) as (_ & _ & _ & Hmatch).
  rewrite Hload in Hmatch. cbn [fst snd] in Hmatch.
  destruct Hmatch as [Hres Hcached].
  clear Hload. revert loaded Hres Hcached.
  induction plugins as [|name plugins IH]; intros loaded Hres Hcached.
  - destruct loaded; [constructor|done].
  - destruct loaded as [|v loaded]; [done|]. injection Hres as Hv Hres.
    constructor.
    + apply Hcached; [apply elem_of_cons; by left|done].
    + apply IH; [done|].
      intros name' plugin Hin. apply Hcached. apply elem_of_cons. by right.
Qed.

Lemma loadPlugins_caches_loaded_demo :
  loadPlugins (Demo.host_last_first "2.3.1")
    ["parcel-transformer-js"; "parcel-plugin-legacy"] (Demo.boot empty_config)
  = (Ok [VObject 3; VObject 6],
     (loadPlugins (Demo.host_last_first "2.3.1")
        ["parcel-transformer-js"; "parcel-plugin-legacy"]
        (Demo.boot empty_config)).2)
  ∧ Forall2
      (λ name plugin,
         pluginCache
           (this (loadPlugins (Demo.host_last_first "2.3.1")
                    ["parcel-transformer-js"; "parcel-plugin-legacy"]
                    (Demo.boot empty_config)).2) !! name = Some plugin)
      ["parcel-transformer-js"; "parcel-plugin-legacy"]
      [VObject 3; VObject 6].
Proof.
  assert (H : loadPlugins (Demo.host_last_first "2.3.1")
                ["parcel-transformer-js"; "parcel-plugin-legacy"]
                (Demo.boot empty_config)
              = (Ok [VObject 3; VObject 6],
                 (loadPlugins (Demo.host_last_first "2.3.1")
                    ["parcel-transformer-js"; "parcel-plugin-legacy"]
                    (Demo.boot empty_config)).2)) by by_computing.
  split; [exact H|].
  exact (loadPlugins_caches_loaded (Demo.host_last_first "2.3.1") _ _ _ _ H).
Defined.

(** A pipeline whose second plugin is not installed, on two hosts. When the
    resolutions settle in the order of the requests the transformer is stored
    before the call is rejected; when the failing resolution settles first,
    the call is rejected while the load of the transformer still waits, and
    the cache is empty at that moment. *)
Example loadPlugins_rejected_in_flight :
  (loadPlugins (Demo.host "2.3.1") ["parcel-transformer-js"; "parcel-namer-none"]
     (Demo.boot empty_config)).1
  = Err (Error "Cannot find module 'parcel-namer-none'")
  ∧ pluginCache
      (this (loadPlugins (Demo.host "2.3.1")
               ["parcel-transformer-js"; "parcel-namer-none"]
               (Demo.boot empty_config)).2) !! "parcel-transformer-js"
    = Some (VObject 3)
  ∧ (loadPlugins (Demo.host_last_first "2.3.1")
       ["parcel-transformer-js"; "parcel-namer-none"]
       (Demo.boot empty_config)).1
    = Err (Error "Cannot find module 'parcel-namer-none'")
  ∧ pluginCache
      (this (loadPlugins (Demo.host_last_first "2.3.1")
               ["parcel-transformer-js"; "parcel-namer-none"]
               (Demo.boot empty_config)).2) !! "parcel-transformer-js"
    = None.
Proof. by vm_compute. Qed.

(** X16. Loading a pipeline leaves the cache entries of the identifiers that
    the pipeline does not name as they are. *)
Theorem loadPlugins_frame (host : Host) (plugins : Pipeline) (w : world)
    (other : PackageName) :
  other ∉ plugins →
  pluginCache (this (loadPlugins host plugins w).2) !! other
  = pluginCache (this w) !! other.
Proof.
  intros Hnot. destruct (loadPlugins_spec host plugins w) as (_ & _ & Hframe & _).
  by apply Hframe.
Qed.

Lemma loadPlugins_frame_demo :
  ("parcel-plugin-legacy" ∉ ["parcel-transformer-js"])
  ∧ pluginCache
      (this (loadPlugins (Demo.host "2.3.1") ["parcel-transformer-js"]
               (again (Demo.host "2.3.1") "parcel-plugin-legacy" 1
                  (Demo.boot empty_config))).2) !! "parcel-plugin-legacy"
    = pluginCache
        (this (again (Demo.host "2.3.1") "parcel-plugin-legacy" 1
                 (Demo.boot empty_config))) !! "parcel-plugin-legacy".
Proof.
  assert (H : "parcel-plugin-legacy" ∉ ["parcel-transformer-js"]) by by_computing.
  split; [exact H|].
  exact (loadPlugins_frame (Demo.host "2.3.1") _ _ _ H).
Defined.

(** ** The accessors, again *)

Section AccessorsAgain.
Variable host : Host.

Lemma loadPlugin_same_configuration pluginName w :
  same_configuration (this (loadPlugin host pluginName w).2) (this w).
Proof.
  destruct (loadPlugin_this host pluginName w) as [->|(p & _ & _ & ->)];
    by repeat split.
Qed.

Lemma loadPlugins_same_configuration plugins w :
  same_configuration (this (loadPlugins host plugins w).2) (this w).
Proof. apply loadPlugins_spec. Qed.

Lemma loadPlugin_Ok_hit pluginName w w1 plugin :
  loadPlugin host pluginName w = (Ok plugin, w1) →
  truthy plugin = true →
  cache_hit (this w1) pluginName = Some plugin.
Proof.
  intros Hload Htruthy. apply cache_hit_Some. split; [|done].
  destruct (cache_hit (this w) pluginName) as [p|] eqn:Hhit.
  - rewrite (loadPlugin_hit _ _ _ _ Hhit) in Hload. injection Hload as -> ->.
    by apply cache_hit_Some in Hhit as [? _].
  - rewrite (loadPlugin_miss_outcome _ _ _ Hhit) in Hload.
    injection Hload as Hr Hw. rewrite <- Hw, Hr. simpl.
    by rewrite lookup_insert_eq.
Qed.

End AccessorsAgain.

(** X17. No operation of the instance changes what the constructor took from
    the configuration record: after [loadPlugin], [loadPlugins] and each of
    the seven accessors, whether they succeed or fail, [configPath] and the
    eight phase fields are what they were. Only the cache changes. *)
Theorem configuration_is_never_changed (host : Host) (w : world)
    (pluginName : PackageName) (plugins : Pipeline) (filePath : FilePath)
    (context : string) :
  same_configuration (this (loadPlugin host pluginName w).2) (this w)
  ∧ same_configuration (this (loadPlugins host plugins w).2) (this w)
  ∧ same_configuration (this (getResolvers host w).2) (this w)
  ∧ same_configuration (this (getTransformers host filePath w).2) (this w)
  ∧ same_configuration (this (getBundler host w).2) (this w)
  ∧ same_configuration (this (getNamers host w).2) (this w)
  ∧ same_configuration (this (getRuntimes host context w).2) (this w)
  ∧ same_configuration (this (getPackager host filePath w).2) (this w)
  ∧ same_configuration (this (getOptimizers host filePath w).2) (this w).
Proof.
  split; [apply loadPlugin_same_configuration|].
  split; [apply loadPlugins_same_configuration|].
  split; [|split; [|split; [|split; [|split; [|split]]]]].
  - unfold getResolvers, bind, get_this, throw. simpl.
    case_bool_decide; [apply same_configuration_refl|].
    apply loadPlugins_same_configuration.
  - unfold getTransformers, bind, get_this, lift, throw. simpl.
    destruct (matchGlobMapPipelines host filePath (transforms (this w)))
      as [ts|e]; [|apply same_configuration_refl].
    case_bool_decide; [apply same_configuration_refl|].
    apply loadPlugins_same_configuration.
  - unfold getBundler, bind, get_this, throw. simpl.
    destruct (truthy_string (bundler (this w))); simpl;
      [apply loadPlugin_same_configuration|apply same_configuration_refl].
  - unfold getNamers, bind, get_this, throw. simpl.
    case_bool_decide; [apply same_configuration_refl|].
    apply loadPlugins_same_configuration.
  - unfold getRuntimes, bind, get_this, ret. simpl.
    destruct (Obj.get (runtimes (this w)) context);
      [apply loadPlugins_same_configuration|apply same_configuration_refl].
  - unfold getPackager, bind, get_this, throw. simpl.
    destruct (matchGlobMap host filePath (packagers (this w))) as [name|];
      [|apply same_configuration_refl].
    destruct (truthy_string name);
      [apply loadPlugin_same_configuration|apply same_configuration_refl].
  - unfold getOptimizers, bind, get_this, lift. simpl.
    destruct (matchGlobMapPipelines host filePath (optimizers (this w)))
      as [os|e]; [|apply same_configuration_refl].
    apply loadPlugins_same_configuration.
Qed.

(** X18. When [getTransformers] has returned truthy plugins for a path, a
    second call for the same path returns the same plugins without touching
    the world: the pipeline is composed as before and every plugin hits the
    cache. *)
Theorem getTransformers_second_call (host : Host) (filePath : FilePath)
    (w w1 : world) (loaded : list value) :
  getTransformers host filePath w = (Ok loaded, w1) →
  Forall (λ plugin, truthy plugin = true) loaded →
  getTransformers host filePath w1 = (Ok loaded, w1).
Proof.
  unfold getTransformers, bind, get_this, lift, throw. simpl.
  intros Hget Htruthy.
  destruct (matchGlobMapPipelines host filePath (transforms (this w)))
    as [ts|e] eqn:Hts; [|done].
  case_bool_decide as Hlen; [done|].
  pose proof (loadPlugins_same_configuration host ts w) as Hconf.
  rewrite Hget in Hconf. destruct Hconf as (_ & _ & Htr & _). simpl in Htr.
  rewrite Htr, Hts. rewrite bool_decide_eq_false_2 by done.
  by eapply loadPlugins_again.
Qed.

Lemma getTransformers_second_call_demo :
  getTransformers (Demo.host "2.3.1") "src/index.js" (Demo.boot app_config)
  = (Ok [VObject 3; VObject 6],
     (getTransformers (Demo.host "2.3.1") "src/index.js" (Demo.boot app_config)).2)
  ∧ getTransformers (Demo.host "2.3.1") "src/index.js"
      (getTransformers (Demo.host "2.3.1") "src/index.js" (Demo.boot app_config)).2
    = (Ok [VObject 3; VObject 6],
       (getTransformers (Demo.host "2.3.1") "src/index.js" (Demo.boot app_config)).2).
Proof.
  assert (H : getTransformers (Demo.host "2.3.1") "src/index.js"
                (Demo.boot app_config)
              = (Ok [VObject 3; VObject 6],
                 (getTransformers (Demo.host "2.3.1") "src/index.js"
                    (Demo.boot app_config)).2)) by by_computing.
  split; [exact H|].
  apply (getTransformers_second_call (Demo.host "2.3.1") _ _ _ _ H).
  repeat constructor.
Defined.

(** X19. When [getPackager] has returned a truthy plugin for a path, a second
    call for the same path returns the same plugin without touching the
    world: the same pattern matches first and its packager hits the cache. *)
Theorem getPackager_second_call (host : Host) (filePath : FilePath)
    (w w1 : world) (plugin : value) :
  getPackager host filePath w = (Ok plugin, w1) →
  truthy plugin = true →
  getPackager host filePath w1 = (Ok plugin, w1).
Proof.
  unfold getPackager, bind, get_this, throw. simpl.
  intros Hget Htruthy.
  destruct (matchGlobMap host filePath (packagers (this w))) as [name|] eqn:Hm;
    [|done].
  destruct (truthy_string name) eqn:Hname; [|done].
  pose proof (loadPlugin_same_configuration host name w) as Hconf.
  rewrite Hget in Hconf. destruct Hconf as (_ & _ & _ & _ & _ & _ & Hp & _).
  simpl in Hp. rewrite Hp, Hm, Hname.
  apply loadPlugin_hit. by eapply loadPlugin_Ok_hit.
Qed.

Lemma getPackager_second_call_demo :
  (getPackager (Demo.host "2.3.1") "src/index.js" (Demo.boot app_config)
   = (Ok (VObject 3),
      (getPackager (Demo.host "2.3.1") "src/index.js" (Demo.boot app_config)).2)
   ∧ truthy (VObject 3) = true)
  ∧ getPackager (Demo.host "2.3.1") "src/index.js"
      (getPackager (Demo.host "2.3.1") "src/index.js" (Demo.boot app_config)).2
    = (Ok (VObject 3),
       (getPackager (Demo.host "2.3.1") "src/index.js" (Demo.boot app_config)).2).
Proof.
  assert (H : getPackager (Demo.host "2.3.1") "src/index.js" (Demo.boot app_config)
              = (Ok (VObject 3),
                 (getPackager (Demo.host "2.3.1") "src/index.js"
                    (Demo.boot app_config)).2)) by by_computing.
  split; [by split|].
  exact (getPackager_second_call (Demo.host "2.3.1") _ _ _ _ H eq_refl).
Defined.

(** ** The graph dump *)

Lemma lastIndexOf_None x parts : x ∉ parts → Dump.lastIndexOf x parts = None.
Proof.
  induction parts as [|y parts IH]; simpl; intros Hn; [done|].
  apply not_elem_of_cons in Hn as [Hxy Hn].
  rewrite IH by done. by rewrite bool_decide_eq_false_2.
Qed.

Lemma lastIndexOf_app x before after :
  x ∉ after → Dump.lastIndexOf x (before ++ x :: after) = Some (length before).
Proof.
  intros Hn. induction before as [|y before IH]; simpl.
  - rewrite lastIndexOf_None by done. by rewrite bool_decide_eq_true_2.
  - by rewrite IH.
Qed.

(** X20. In the label of a bundle, a root asset whose path has a
    node_modules segment is shown by the segment that follows the last
    node_modules: the innermost package for nested dependencies, no more than
    the scope for a scoped package, and nothing ([undefined]) when
    node_modules is the last segment. *)
Theorem asset_name_after_last_node_modules (sep : ascii)
    (basename : FilePath → string) (filePath : FilePath)
    (before after : list string) :
  Dump.split sep filePath = before ++ "node_modules" :: after →
  "node_modules" ∉ after →
  Dump.asset_name sep basename filePath = head after.
Proof.
  intros Hparts Hlast. unfold Dump.asset_name. rewrite Hparts.
  rewrite lastIndexOf_app by done.
  rewrite lookup_app_r by lia.
  replace (length before + 1 - length before) with 1 by lia.
  by destruct after.
Qed.

Lemma asset_name_after_last_node_modules_nested :
  (Dump.split "/"%char "/app/node_modules/@babel/core/node_modules/lodash/index.js"
   = [""; "app"; "node_modules"; "@babel"; "core"]
     ++ "node_modules" :: ["lodash"; "index.js"]
   ∧ ("node_modules" ∉ ["lodash"; "index.js"]))
  ∧ Dump.asset_name "/"%char Model.basename
      "/app/node_modules/@babel/core/node_modules/lodash/index.js"
    = head ["lodash"; "index.js"].
Proof.
  assert (H1 : Dump.split "/"%char
                 "/app/node_modules/@babel/core/node_modules/lodash/index.js"
               = [""; "app"; "node_modules"; "@babel"; "core"]
                 ++ "node_modules" :: ["lodash"; "index.js"]) by by_computing.
  assert (H2 : "node_modules" ∉ ["lodash"; "index.js"]) by by_computing.
  split; [by split|].
  exact (asset_name_after_last_node_modules "/"%char Model.basename _ _ _ H1 H2).
Defined.

(** A scoped package is shown by its scope alone; a path outside node_modules
    by its basename. *)
Example asset_name_samples :
  Dump.asset_name "/"%char Model.basename "/app/node_modules/@babel/core/lib/index.js"
  = Some "@babel"
  ∧ Dump.asset_name "/"%char Model.basename "/app/src/index.js" = Some "index.js"
  ∧ Dump.asset_name "/"%char Model.basename "/app/node_modules" = None.
Proof. by vm_compute. Qed.

Lemma append_empty (a b : string) : a +:+ b = "" → a = "" ∧ b = "".
Proof. destruct a; [done|]. by intros [=]. Qed.

(** X21. The description of an environment is empty exactly when the
    environment has no browsers list and no node range (or an empty one).
    With a browsers list, even an empty one, it is the context, a colon and
    the browsers joined by commas, and the node range is not shown; without
    one and with a node range it is "node: " and the range. *)
Theorem getEnvDescription_cases (env : Dump.Environment) :
  (Dump.getEnvDescription env = ""
   ↔ Dump.engines_browsers env = None
     ∧ (Dump.engines_node env = None ∨ Dump.engines_node env = Some ""))
  ∧ (∀ browsers, Dump.engines_browsers env = Some browsers →
       Dump.getEnvDescription env
       = Dump.context env +:+ ": " +:+ Dump.join ", " browsers)
  ∧ (∀ node, Dump.engines_browsers env = None →
       Dump.engines_node env = Some node → node ≠ "" →
       Dump.getEnvDescription env = "node: " +:+ node).
Proof.
  unfold Dump.getEnvDescription. split; [|split].
  - destruct (Dump.engines_browsers env) as [browsers|].
    + split; [|by intros [? _]]. intros H.
      apply append_empty in H as [_ H]. by apply append_empty in H as [H _].
    + destruct (Dump.engines_node env) as [node|]; [|by split; [split; [|left]|]].
      unfold truthy_string. case_bool_decide as Hn; simpl.
      * subst. split; [by split; [|right]|done].
      * split; [intros H; by apply append_empty in H as [H _]|].
        intros [_ [H|H]]; [done|]. by injection H.
  - by intros browsers ->.
  - intros node -> -> Hnode. unfold truthy_string.
    by rewrite bool_decide_eq_false_2.
Qed.

Lemma getEnvDescription_cases_browser :
  Dump.engines_browsers
    {| Dump.context := "browser";
       Dump.engines_browsers := Some ["> 1%"; "last 2 versions"];
       Dump.engines_node := Some ">= 8" |}
  = Some ["> 1%"; "last 2 versions"]
  ∧ Dump.getEnvDescription
      {| Dump.context := "browser";
         Dump.engines_browsers := Some ["> 1%"; "last 2 versions"];
         Dump.engines_node := Some ">= 8" |}
    = "browser" +:+ ": " +:+ Dump.join ", " ["> 1%"; "last 2 versions"].
Proof.
  split; [reflexivity|].
  exact (proj1 (proj2 (getEnvDescription_cases
                         {| Dump.context := "browser";
                            Dump.engines_browsers := Some ["> 1%"; "last 2 versions"];
                            Dump.engines_node := Some ">= 8" |}))
           _ eq_refl).
Defined.
